(** * The editor session controller of apicurito-editor-vscode

    A shallow embedding of [src/app/editor/editor.component.ts]: the fields of
    [EditorComponent], its public methods, and the small part of the browser
    it runs in (the timer table of [setTimeout]/[clearTimeout], the promises
    returned by the download service, the collaborating services), followed by
    the properties of the save / close / generate flows, of the disaster
    recovery debounce and of the toasts. *)

From Stdlib Require Import List String NArith ZArith Bool Lia.
Import ListNotations.
Open Scope string_scope.
Open Scope list_scope.
Open Scope N_scope.

Set Warnings "-register-all".

(** ** JavaScript values *)

(** The value held in [ApiDefinition.spec] is typed [any]. *)
Inductive JsValue : Type :=
| JsUndefined
| JsNull
| JsBoolean (b : bool)
| JsNumber (z : Z)
| JsString (s : string)
| JsArray (items : list JsValue)
| JsObject (fields : list (string * JsValue)).

(** The [typeof] operator. *)
Definition typeof (v : JsValue) : string :=
  match v with
  | JsUndefined => "undefined"
  | JsNull => "object"
  | JsBoolean _ => "boolean"
  | JsNumber _ => "number"
  | JsString _ => "string"
  | JsArray _ => "object"
  | JsObject _ => "object"
  end.

(** The values whose [typeof] is "object": objects, arrays and [null]. *)
Definition is_object_value (v : JsValue) : bool :=
  match v with
  | JsNull | JsArray _ | JsObject _ => true
  | _ => false
  end.

(** Whether [undefined] occurs in a value, at any depth. *)
Fixpoint has_undefined (v : JsValue) : bool :=
  match v with
  | JsUndefined => true
  | JsArray items => existsb has_undefined items
  | JsObject fields => existsb (fun kv => has_undefined (snd kv)) fields
  | _ => false
  end.

(** [ApiDefinition] comes from the editor library; the component reads only
    its [spec]. *)
Record ApiDefinition : Type := { spec : JsValue }.

(** Modelled from the spec: the type [ApiFileEncoding] of
    [api-file-encoding.type], an enumeration with the two members the
    component compares against.  The [encoding] field is an input of the
    component and holds one of them once it is bound. *)
Inductive ApiFileEncoding : Type := JSON | YAML.

(** Modelled from the spec: [GeneratorConfig] of [config.service], an opaque
    value that the component hands over without looking into it. *)
Definition GeneratorConfig : Type := JsValue.

(** Options object given to [YAML.safeDump]. *)
Record DumpOptions : Type := { indent : N; lineWidth : N; noRefs : bool }.

(** What the component hands to a transport.  The two serializers are library
    code; their results are kept as the call that produced them.  [Verbatim]
    is a [spec] that went through none of them. *)
Inductive Content : Type :=
| Verbatim (v : JsValue)
| JSON_stringify (v : JsValue) (space : N)
| YAML_safeDump (v : JsValue) (opts : DumpOptions).

(** Whether the call that a content stands for raises instead of returning.
    [YAML.safeDump] (js-yaml 3, called without [skipInvalid]) raises a
    [YAMLException] on a value with an [undefined] in it; [JSON.stringify]
    returns on every value of [JsValue] (it leaves [undefined] members out). *)
Definition raises (c : Content) : bool :=
  match c with
  | YAML_safeDump v _ => has_undefined v
  | _ => false
  end.

(** ** The world around the component *)

(** The two arrow functions the component gives to [setTimeout]. *)
Inductive Callback : Type :=
| PersistCb      (* documentChanged: store the value, forget the handle *)
| HideSuccessCb. (* generate: showSuccessToast = false *)

Record Timer : Type := { tid : N; due : N; cb : Callback }.

(** What the collaborators observe. *)
Inductive Effect : Type :=
| StorageStore (v : ApiDefinition)
| StorageClear
| DownloadToFS (content : Content) (ct filename : string)
| GenerateAndDownload (gconfig : GeneratorConfig) (content : Content) (filename : string)
| SendMessage (type : string) (data : Content)
| OnCloseEmit
| Uncaught (exception : string).  (* an exception no method catches *)

(** Callbacks attached with [.then] and [.catch]. *)
Inductive ThenHandler : Type :=
| SaveDone          (* save:         rval => { this.storage.clear(); return rval; } *)
| CloseAfterSave    (* saveAndClose: () => { this.close(); } *)
| GenerateDone.     (* generate:     () => { ...success toast... } *)

Inductive CatchHandler : Type :=
| GenerateFailed.   (* generate:     error => { ...error toast... } *)

Inductive Link : Type := Then (f : ThenHandler) | Catch (g : CatchHandler).

(** How a promise settles; a rejection carries the [message] of its error. *)
Inductive Outcome : Type := Fulfilled (v : JsValue) | Rejected (message : string).

(** A transport promise with the callbacks chained on it, or, once settled,
    the outcome of the last promise of the chain (what the caller of the
    method sees). *)
Inductive Promise : Type := Pending (chain : list Link) | Settled (o : Outcome).

Record State : Type := {
  (* fields of EditorComponent *)
  generating : bool;
  generateError : option string;
  showSuccessToast : bool;
  showErrorToast : bool;
  toastTimeoutId : option N;
  persistenceTimeout : option N;
  encoding : option ApiFileEncoding;   (* None: the input is not bound *)
  (* apiEditor.getValue() *)
  editor_value : ApiDefinition;
  (* the recovery store behind StorageService *)
  storage : option ApiDefinition;
  (* the timer table of the window *)
  timers : list Timer;
  next_timer : N;
  (* promises handed out by DownloaderService, newest first *)
  promises : list (N * Promise);
  next_promise : N;
  (* the clock, in milliseconds, and what happened so far *)
  now : N;
  trace : list (N * Effect)
}.

Definition set_generating (b : bool) (s : State) : State :=
  {| generating := b; generateError := generateError s;
     showSuccessToast := showSuccessToast s; showErrorToast := showErrorToast s;
     toastTimeoutId := toastTimeoutId s; persistenceTimeout := persistenceTimeout s;
     encoding := encoding s; editor_value := editor_value s; storage := storage s;
     timers := timers s; next_timer := next_timer s; promises := promises s;
     next_promise := next_promise s; now := now s; trace := trace s |}.

Definition set_generateError (e : option string) (s : State) : State :=
  {| generating := generating s; generateError := e;
     showSuccessToast := showSuccessToast s; showErrorToast := showErrorToast s;
     toastTimeoutId := toastTimeoutId s; persistenceTimeout := persistenceTimeout s;
     encoding := encoding s; editor_value := editor_value s; storage := storage s;
     timers := timers s; next_timer := next_timer s; promises := promises s;
     next_promise := next_promise s; now := now s; trace := trace s |}.

Definition set_showSuccessToast (b : bool) (s : State) : State :=
  {| generating := generating s; generateError := generateError s;
     showSuccessToast := b; showErrorToast := showErrorToast s;
     toastTimeoutId := toastTimeoutId s; persistenceTimeout := persistenceTimeout s;
     encoding := encoding s; editor_value := editor_value s; storage := storage s;
     timers := timers s; next_timer := next_timer s; promises := promises s;
     next_promise := next_promise s; now := now s; trace := trace s |}.

Definition set_showErrorToast (b : bool) (s : State) : State :=
  {| generating := generating s; generateError := generateError s;
     showSuccessToast := showSuccessToast s; showErrorToast := b;
     toastTimeoutId := toastTimeoutId s; persistenceTimeout := persistenceTimeout s;
     encoding := encoding s; editor_value := editor_value s; storage := storage s;
     timers := timers s; next_timer := next_timer s; promises := promises s;
     next_promise := next_promise s; now := now s; trace := trace s |}.

Definition set_toastTimeoutId (h : option N) (s : State) : State :=
  {| generating := generating s; generateError := generateError s;
     showSuccessToast := showSuccessToast s; showErrorToast := showErrorToast s;
     toastTimeoutId := h; persistenceTimeout := persistenceTimeout s;
     encoding := encoding s; editor_value := editor_value s; storage := storage s;
     timers := timers s; next_timer := next_timer s; promises := promises s;
     next_promise := next_promise s; now := now s; trace := trace s |}.

Definition set_persistenceTimeout (h : option N) (s : State) : State :=
  {| generating := generating s; generateError := generateError s;
     showSuccessToast := showSuccessToast s; showErrorToast := showErrorToast s;
     toastTimeoutId := toastTimeoutId s; persistenceTimeout := h;
     encoding := encoding s; editor_value := editor_value s; storage := storage s;
     timers := timers s; next_timer := next_timer s; promises := promises s;
     next_promise := next_promise s; now := now s; trace := trace s |}.

Definition set_encoding (e : option ApiFileEncoding) (s : State) : State :=
  {| generating := generating s; generateError := generateError s;
     showSuccessToast := showSuccessToast s; showErrorToast := showErrorToast s;
     toastTimeoutId := toastTimeoutId s; persistenceTimeout := persistenceTimeout s;
     encoding := e; editor_value := editor_value s; storage := storage s;
     timers := timers s; next_timer := next_timer s; promises := promises s;
     next_promise := next_promise s; now := now s; trace := trace s |}.

Definition set_editor_value (v : ApiDefinition) (s : State) : State :=
  {| generating := generating s; generateError := generateError s;
     showSuccessToast := showSuccessToast s; showErrorToast := showErrorToast s;
     toastTimeoutId := toastTimeoutId s; persistenceTimeout := persistenceTimeout s;
     encoding := encoding s; editor_value := v; storage := storage s;
     timers := timers s; next_timer := next_timer s; promises := promises s;
     next_promise := next_promise s; now := now s; trace := trace s |}.

Definition set_storage (v : option ApiDefinition) (s : State) : State :=
  {| generating := generating s; generateError := generateError s;
     showSuccessToast := showSuccessToast s; showErrorToast := showErrorToast s;
     toastTimeoutId := toastTimeoutId s; persistenceTimeout := persistenceTimeout s;
     encoding := encoding s; editor_value := editor_value s; storage := v;
     timers := timers s; next_timer := next_timer s; promises := promises s;
     next_promise := next_promise s; now := now s; trace := trace s |}.

Definition set_timers (ts : list Timer) (s : State) : State :=
  {| generating := generating s; generateError := generateError s;
     showSuccessToast := showSuccessToast s; showErrorToast := showErrorToast s;
     toastTimeoutId := toastTimeoutId s; persistenceTimeout := persistenceTimeout s;
     encoding := encoding s; editor_value := editor_value s; storage := storage s;
     timers := ts; next_timer := next_timer s; promises := promises s;
     next_promise := next_promise s; now := now s; trace := trace s |}.

Definition set_next_timer (n : N) (s : State) : State :=
  {| generating := generating s; generateError := generateError s;
     showSuccessToast := showSuccessToast s; showErrorToast := showErrorToast s;
     toastTimeoutId := toastTimeoutId s; persistenceTimeout := persistenceTimeout s;
     encoding := encoding s; editor_value := editor_value s; storage := storage s;
     timers := timers s; next_timer := n; promises := promises s;
     next_promise := next_promise s; now := now s; trace := trace s |}.

Definition set_promises (ps : list (N * Promise)) (s : State) : State :=
  {| generating := generating s; generateError := generateError s;
     showSuccessToast := showSuccessToast s; showErrorToast := showErrorToast s;
     toastTimeoutId := toastTimeoutId s; persistenceTimeout := persistenceTimeout s;
     encoding := encoding s; editor_value := editor_value s; storage := storage s;
     timers := timers s; next_timer := next_timer s; promises := ps;
     next_promise := next_promise s; now := now s; trace := trace s |}.

Definition set_next_promise (n : N) (s : State) : State :=
  {| generating := generating s; generateError := generateError s;
     showSuccessToast := showSuccessToast s; showErrorToast := showErrorToast s;
     toastTimeoutId := toastTimeoutId s; persistenceTimeout := persistenceTimeout s;
     encoding := encoding s; editor_value := editor_value s; storage := storage s;
     timers := timers s; next_timer := next_timer s; promises := promises s;
     next_promise := n; now := now s; trace := trace s |}.

Definition set_now (t : N) (s : State) : State :=
  {| generating := generating s; generateError := generateError s;
     showSuccessToast := showSuccessToast s; showErrorToast := showErrorToast s;
     toastTimeoutId := toastTimeoutId s; persistenceTimeout := persistenceTimeout s;
     encoding := encoding s; editor_value := editor_value s; storage := storage s;
     timers := timers s; next_timer := next_timer s; promises := promises s;
     next_promise := next_promise s; now := t; trace := trace s |}.

(** Appends to the trace, stamped with the current time. *)
Definition emit (e : Effect) (s : State) : State :=
  {| generating := generating s; generateError := generateError s;
     showSuccessToast := showSuccessToast s; showErrorToast := showErrorToast s;
     toastTimeoutId := toastTimeoutId s; persistenceTimeout := persistenceTimeout s;
     encoding := encoding s; editor_value := editor_value s; storage := storage s;
     timers := timers s; next_timer := next_timer s; promises := promises s;
     next_promise := next_promise s; now := now s; trace := trace s ++ [(now s, e)] |}.

(** *** Timers *)

(** [setTimeout(cb, delay)]: a fresh handle, the timer due [delay] from now. *)
Definition setTimeout (c : Callback) (delay : N) (s : State) : N * State :=
  let id := next_timer s in
  (id, set_next_timer (id + 1)
         (set_timers (timers s ++ [{| tid := id; due := now s + delay; cb := c |}]) s)).

(** [clearTimeout(h)]: drops the timer with that handle, if there is one;
    [null] and handles of timers that are gone do nothing. *)
Definition clearTimeout (h : option N) (s : State) : State :=
  match h with
  | Some id => set_timers (filter (fun t => negb (tid t =? id)) (timers s)) s
  | None => s
  end.

(** Truthiness of a timer handle held in a field ([null], [undefined] and 0
    are falsy). *)
Definition truthy (h : option N) : bool :=
  match h with
  | Some id => negb (id =? 0)
  | None => false
  end.

(** *** The services *)

(** Modelled from the spec: [StorageService] (storage.service), the recovery
    store; it holds at most one snapshot, [store] overwrites it and [clear]
    erases it. *)
Definition storage_store (v : ApiDefinition) (s : State) : State :=
  set_storage (Some v) (emit (StorageStore v) s).

Definition storage_clear (s : State) : State :=
  set_storage None (emit StorageClear s).

(** Registers the promise a transport call returns, with the callbacks the
    caller chains on it. *)
Definition new_promise (chain : list Link) (s : State) : State :=
  set_next_promise (next_promise s + 1)
    (set_promises ((next_promise s, Pending chain) :: promises s) s).

(** Modelled from the spec: [DownloaderService] (downloader.service), the
    export transport; each call is observed and answers with a promise that
    the transport settles later. *)
Definition downloadToFS (content : Content) (ct filename : string)
    (chain : list Link) (s : State) : State :=
  new_promise chain (emit (DownloadToFS content ct filename) s).

Definition generateAndDownload (gconfig : GeneratorConfig) (content : Content)
    (filename : string) (chain : list Link) (s : State) : State :=
  new_promise chain (emit (GenerateAndDownload gconfig content filename) s).

(** Modelled from the spec: [VscodeExtensionService.sendMessage]
    (vscode-extension.service), the fire-and-forget host message channel. *)
Definition sendMessage (type : string) (data : Content) (s : State) : State :=
  emit (SendMessage type data) s.

(** A statement raises: the method stops there, what it wrote to the fields
    so far stays, and the exception goes to the caller, which does not catch
    it. *)
Definition throw (exception : string) (s : State) : State :=
  emit (Uncaught exception) s.

(** ** The methods of EditorComponent *)

Definition documentChanged (s : State) : State :=
  let s1 := if truthy (persistenceTimeout s)
            then set_persistenceTimeout None (clearTimeout (persistenceTimeout s) s)
            else s in
  let (id, s2) := setTimeout PersistCb 5000 s1 in
  set_persistenceTimeout (Some id) s2.

Definition dump_options : DumpOptions :=
  {| indent := 4; lineWidth := 110; noRefs := true |}.

(** The [if]/[else if] on [encoding] has no [else]: with no encoding bound
    the object is sent as it is. *)
Definition saveExt (s : State) : State :=
  let spec0 := spec (editor_value s) in
  if (typeof spec0 =? "object")%string then
    let data := match encoding s with
                | Some JSON => JSON_stringify spec0 4
                | Some YAML => YAML_safeDump spec0 dump_options
                | None => Verbatim spec0
                end in
    if raises data then throw "YAMLException" s
    else sendMessage "save-req" data s
  else s.

(** The content and the file name [save] has when it reaches the transport;
    whether the serializer call behind the content returns at all is
    [raises]. *)
Definition save_export (format : string) (spec0 : JsValue) : Content * string :=
  let filename := "openapi-spec" in
  if (typeof spec0 =? "object")%string then
    if (format =? "json")%string
    then (JSON_stringify spec0 4, (filename ++ ".json")%string)
    else (YAML_safeDump spec0 dump_options, (filename ++ ".yaml")%string)
  else (Verbatim spec0, filename).

(** [save(format)] up to its [return]: the promise it returns is the transport
    promise with [SaveDone] on it, then whatever the caller chains ([rest]).
    When [YAML.safeDump] raises, [save] ends there: [generateError] is reset,
    the transport is not called and no promise is returned. *)
Definition save_with (rest : list Link) (format : string) (s : State) : State :=
  let s1 := set_generateError None s in
  let ct := "application/json" in
  let (content, filename) := save_export format (spec (editor_value s1)) in
  if raises content then throw "YAMLException" s1
  else downloadToFS content ct filename (Then SaveDone :: rest) s1.

Definition save (format : string) (s : State) : State := save_with [] format s.

(** The callbacks chained on the transport promise by each flow. *)
Definition save_chain : list Link := [Then SaveDone].
Definition saveAndClose_chain : list Link := [Then SaveDone; Then CloseAfterSave].
Definition generate_chain : list Link := [Then GenerateDone; Catch GenerateFailed].

Definition close (s : State) : State :=
  emit OnCloseEmit (storage_clear (set_generateError None s)).

(** [this.save().then(() => { this.close(); })], [format] at its default. *)
Definition saveAndClose (s : State) : State :=
  save_with [Then CloseAfterSave] "json" s.

Definition generate_content (spec0 : JsValue) : Content :=
  if (typeof spec0 =? "object")%string then JSON_stringify spec0 4 else Verbatim spec0.

Definition generate (gconfig : GeneratorConfig) (s : State) : State :=
  let s1 := set_showSuccessToast false
              (set_showErrorToast false (set_generateError None s)) in
  let content := generate_content (spec (editor_value s1)) in
  let filename := "camel-project.zip" in
  let s2 := set_generating true s1 in
  generateAndDownload gconfig content filename generate_chain s2.

Definition closeSuccessToast (s : State) : State :=
  clearTimeout (toastTimeoutId s) (set_showSuccessToast false s).

Definition closeErrorToast (s : State) : State :=
  clearTimeout (toastTimeoutId s) (set_showErrorToast false s).

(** ** Callbacks *)

Definition run_then (f : ThenHandler) (v : JsValue) (s : State) : State * JsValue :=
  match f with
  | SaveDone => (storage_clear s, v)
  | CloseAfterSave => (close s, JsUndefined)
  | GenerateDone =>
      let s1 := set_showSuccessToast true (set_generating false s) in
      let (id, s2) := setTimeout HideSuccessCb 5000 s1 in
      (set_toastTimeoutId (Some id) s2, JsUndefined)
  end.

Definition run_catch (g : CatchHandler) (message : string) (s : State) : State * JsValue :=
  match g with
  | GenerateFailed =>
      (set_showErrorToast true
         (set_generateError (Some message) (set_generating false s)), JsUndefined)
  end.

(** A settled promise runs the callbacks chained on it: [then] callbacks are
    skipped by a rejection and [catch] callbacks by a fulfilment; a callback
    that returns fulfils the next promise with what it returned.  The result
    is the outcome of the last promise of the chain. *)
Fixpoint run_chain (c : list Link) (o : Outcome) (s : State) : State * Outcome :=
  match c with
  | [] => (s, o)
  | Then f :: c' =>
      match o with
      | Fulfilled v => let (s', r) := run_then f v s in run_chain c' (Fulfilled r) s'
      | Rejected _ => run_chain c' o s
      end
  | Catch g :: c' =>
      match o with
      | Fulfilled _ => run_chain c' o s
      | Rejected m => let (s', r) := run_catch g m s in run_chain c' (Fulfilled r) s'
      end
  end.

Fixpoint lookup_promise (id : N) (ps : list (N * Promise)) : option Promise :=
  match ps with
  | [] => None
  | (i, p) :: ps' => if i =? id then Some p else lookup_promise id ps'
  end.

Definition settle_promise (id : N) (o : Outcome) (ps : list (N * Promise))
    : list (N * Promise) :=
  map (fun ip => if fst ip =? id then (fst ip, Settled o) else ip) ps.

(** The transport settles promise [id]; nothing happens when [id] is not
    pending.  The callbacks of the chain run as microtasks, one after the
    other, before the event loop takes up a timer or another call, so the
    chain runs here in one piece. *)
Definition settle (id : N) (o : Outcome) (s : State) : State :=
  match lookup_promise id (promises s) with
  | Some (Pending c) =>
      let (s', o') := run_chain c o s in
      set_promises (settle_promise id o' (promises s')) s'
  | _ => s
  end.

Definition run_callback (c : Callback) (s : State) : State :=
  match c with
  | PersistCb => set_persistenceTimeout None (storage_store (editor_value s) s)
  | HideSuccessCb => set_showSuccessToast false s
  end.

(** ** The event loop *)

(** [a] runs before [b]: earlier deadline first, first scheduled first among
    equal deadlines. *)
Definition earlier (a b : Timer) : bool :=
  (due a <? due b) || ((due a =? due b) && (tid a <=? tid b)).

Fixpoint next_due (ts : list Timer) : option Timer :=
  match ts with
  | [] => None
  | t :: r =>
      match next_due r with
      | None => Some t
      | Some u => if earlier t u then Some t else Some u
      end
  end.

(** A timer fires: it leaves the table, the clock is at its deadline (or
    later), its callback runs. *)
Definition fire (t : Timer) (s : State) : State :=
  run_callback (cb t)
    (set_now (N.max (now s) (due t))
       (set_timers (filter (fun u => negb (tid u =? tid t)) (timers s)) s)).

(** Lets the clock reach [target], firing on the way every timer that comes
    due, in order. *)
Fixpoint run_timers (fuel : nat) (target : N) (s : State) : State :=
  match fuel with
  | O => set_now target s
  | S fuel' =>
      match next_due (timers s) with
      | Some t => if due t <=? target
                  then run_timers fuel' target (fire t s)
                  else set_now target s
      | None => set_now target s
      end
  end.

(** [ms] milliseconds pass.  No callback of the component schedules a timer,
    so one round per pending timer is enough (see [advance_complete]). *)
Definition advance (ms : N) (s : State) : State :=
  run_timers (List.length (timers s)) (now s + ms) s.

Inductive Event : Type :=
| EEditorValue (v : ApiDefinition)   (* the user changed the document in the editor *)
| EDocumentChanged
| ESaveExt                           (* the host asks to save (bindEditorSave) *)
| ESave (format : string)
| EClose
| ESaveAndClose
| EGenerate (gconfig : GeneratorConfig)
| ECloseSuccessToast
| ECloseErrorToast
| ESettle (id : N) (o : Outcome)     (* a transport call completes *)
| EAdvance (ms : N).                 (* time passes *)

Definition step (s : State) (e : Event) : State :=
  match e with
  | EEditorValue v => set_editor_value v s
  | EDocumentChanged => documentChanged s
  | ESaveExt => saveExt s
  | ESave format => save format s
  | EClose => close s
  | ESaveAndClose => saveAndClose s
  | EGenerate gconfig => generate gconfig s
  | ECloseSuccessToast => closeSuccessToast s
  | ECloseErrorToast => closeErrorToast s
  | ESettle id o => settle id o s
  | EAdvance ms => advance ms s
  end.

Definition run (es : list Event) (s : State) : State := fold_left step es s.

(** A fresh component: field initializers of the class, the two inputs
    bound, an empty world. *)
Definition init (enc : ApiFileEncoding) (doc : ApiDefinition) : State :=
  {| generating := false; generateError := None;
     showSuccessToast := false; showErrorToast := false;
     toastTimeoutId := None; persistenceTimeout := None;
     encoding := Some enc; editor_value := doc; storage := None;
     timers := []; next_timer := 1; promises := [];
     next_promise := 0; now := 0; trace := [] |}.

(** ** Sample documents *)

Definition petstore : ApiDefinition :=
  {| spec := JsObject [("openapi", JsString "3.0.2"); ("paths", JsObject [])] |}.

Definition petstore_text : ApiDefinition :=
  {| spec := JsString "openapi: 3.0.2" |}.

(** A document with a member that is [undefined]. *)
Definition petstore_undefined : ApiDefinition :=
  {| spec := JsObject [("openapi", JsString "3.0.2"); ("info", JsUndefined)] |}.

Definition camel_config : GeneratorConfig :=
  JsObject [("projectType", JsString "camel")].

(** A component whose first generation succeeded: the success toast is shown
    and its timer is pending. *)
Definition success_shown : State :=
  run [EGenerate camel_config; ESettle 0 (Fulfilled JsUndefined)] (init JSON petstore).

Definition success_timer : Timer := {| tid := 1; due := 5000; cb := HideSuccessCb |}.

(** A component whose first generation failed: the error toast is shown with
    the message of the failure. *)
Definition error_shown : State :=
  run [EGenerate camel_config; ESettle 0 (Rejected "quota exceeded")] (init JSON petstore).

(** ** Notions used by the properties *)

(** The fields no timer callback writes. *)
Definition untimed (s : State) :=
  (generating s, generateError s, showErrorToast s, toastTimeoutId s,
   encoding s, editor_value s, promises s, next_promise s, next_timer s).

Definition is_persist (t : Timer) : bool :=
  match cb t with PersistCb => true | HideSuccessCb => false end.

(** The recovery persistence timers in the timer table. *)
Definition pending_persistence (s : State) : list Timer :=
  filter is_persist (timers s).

(** Writes to the recovery store, with their times. *)
Definition is_store (e : N * Effect) : bool :=
  match snd e with StorageStore _ => true | _ => false end.

Definition writes (s : State) : list (N * Effect) := filter is_store (trace s).

(** "closed" signals sent to the embedding context. *)
Definition is_close (e : N * Effect) : bool :=
  match snd e with OnCloseEmit => true | _ => false end.

Definition closed_signals (s : State) : list (N * Effect) := filter is_close (trace s).

(** The timer table as the browser keeps it and as the component uses it:
    handles are positive, fresh and pairwise distinct, and a persistence
    timer that is pending is the one [persistenceTimeout] holds. *)
Record wf (s : State) : Prop := {
  wf_next : 0 < next_timer s;
  wf_ids : forall t, In t (timers s) -> 0 < tid t /\ tid t < next_timer s;
  wf_nodup : NoDup (map tid (timers s));
  wf_handle : forall t, In t (timers s) -> cb t = PersistCb ->
                        persistenceTimeout s = Some (tid t)
}.

(** An edit: the editor holds [v] and tells the component. *)
Definition edit (v : ApiDefinition) : list Event :=
  [EEditorValue v; EDocumentChanged].

(** The edits that follow the first one of a burst: each [(gap, v)] comes
    [gap] milliseconds after the edit before it. *)
Fixpoint later_edits (l : list (N * ApiDefinition)) : list Event :=
  match l with
  | [] => []
  | (gap, v) :: l' => EAdvance gap :: edit v ++ later_edits l'
  end.

Definition burst (v0 : ApiDefinition) (l : list (N * ApiDefinition)) : list Event :=
  edit v0 ++ later_edits l.

(** Time from the first edit of a burst to its last, and the document the
    last edit left in the editor. *)
Definition span (l : list (N * ApiDefinition)) : N :=
  fold_right (fun gv acc => fst gv + acc) 0 l.

Definition last_value (v0 : ApiDefinition) (l : list (N * ApiDefinition))
    : ApiDefinition :=
  fold_left (fun _ gv => snd gv) l v0.

(** The state between two edits of a burst: the timer of the last edit is
    pending. *)
Definition armed (v : ApiDefinition) (s : State) : Prop :=
  wf s /\ editor_value s = v
  /\ exists p, In p (timers s) /\ cb p = PersistCb /\ due p = now s + 5000.

(** Events that hide the error toast on purpose: its close button, and a new
    [generate()], which starts by hiding both toasts. *)
Definition dismisses_error (e : Event) : bool :=
  match e with
  | ECloseErrorToast | EGenerate _ => true
  | _ => false
  end.

Definition is_rejected (o : Outcome) : bool :=
  match o with Rejected _ => true | Fulfilled _ => false end.

(** Whether a chain, settled by a rejection or not, runs a callback that
    writes [generateError]: the [close()] that follows a save, or the failure
    callback of [generate]. *)
Fixpoint chain_writes_message (c : list Link) (rejected : bool) : bool :=
  match c with
  | [] => false
  | Then f :: c' =>
      if rejected then chain_writes_message c' true
      else match f with
           | CloseAfterSave => true
           | _ => chain_writes_message c' false
           end
  | Catch GenerateFailed :: c' =>
      if rejected then true else chain_writes_message c' false
  end.

(** The events that write [generateError]: a call of [save()], [close()] or
    [generate()] (also through [saveAndClose()]), and the completion of a
    transport call that runs one of the two callbacks above. *)
Definition writes_message (s : State) (e : Event) : bool :=
  match e with
  | ESave _ | ESaveAndClose | EClose | EGenerate _ => true
  | ESettle id o =>
      match lookup_promise id (promises s) with
      | Some (Pending c) => chain_writes_message c (is_rejected o)
      | _ => false
      end
  | _ => false
  end.

(** A run none of whose events writes [generateError]. *)
Fixpoint message_untouched (es : list Event) (s : State) : Prop :=
  match es with
  | [] => True
  | e :: es' => writes_message s e = false /\ message_untouched es' (step s e)
  end.

(** Calls of [close()] from outside and new calls of [saveAndClose()]. *)
Definition calls_close (e : Event) : bool :=
  match e with
  | EClose | ESaveAndClose => true
  | _ => false
  end.

Definition settles (id : N) (e : Event) : bool :=
  match e with
  | ESettle i _ => i =? id
  | _ => false
  end.

(** No pending promise has [close()] chained on it. *)
Definition close_free (s : State) : Prop :=
  forall i c, In (i, Pending c) (promises s) -> ~ In (Then CloseAfterSave) c.

(** ** Notions used by the further properties *)

(** A component with an edit that is not persisted yet. *)
Definition edited : State := run (edit petstore_text) (init YAML petstore).

Definition edit_timer : Timer := {| tid := 1; due := 5000; cb := PersistCb |}.

(** Two generations in flight. *)
Definition two_generations : State :=
  run [EGenerate camel_config; EGenerate camel_config] (init JSON petstore).

(** The first of two generations succeeded, the second is still in flight. *)
Definition first_succeeded : State :=
  run [ESettle 0 (Fulfilled JsUndefined)] two_generations.

(** The first of two generations succeeded, the second failed. *)
Definition both_settled : State :=
  run [ESettle 0 (Fulfilled JsUndefined); ESettle 1 (Rejected "quota exceeded")]
      two_generations.

(** A second generation started 3000 ms after the first one succeeded. *)
Definition second_generation : State :=
  run [EAdvance 3000; EGenerate camel_config] success_shown.

Definition is_toast (t : Timer) : bool :=
  match cb t with HideSuccessCb => true | PersistCb => false end.

(** The toast timers in the timer table. *)
Definition pending_toast (s : State) : list Timer := filter is_toast (timers s).

(** Each of the two handle fields holds a handle that [setTimeout] gave for
    its own kind of callback: a timer that [persistenceTimeout] names is a
    persistence timer, one that [toastTimeoutId] names is a toast timer, and
    neither field holds a handle that is still to be given out. *)
Record handles_typed (s : State) : Prop := {
  persist_handle_old : forall k, persistenceTimeout s = Some k -> k < next_timer s;
  persist_handle_kind : forall t, In t (timers s) ->
                          persistenceTimeout s = Some (tid t) -> cb t = PersistCb;
  toast_handle_old : forall k, toastTimeoutId s = Some k -> k < next_timer s;
  toast_handle_kind : forall t, In t (timers s) ->
                        toastTimeoutId s = Some (tid t) -> cb t = HideSuccessCb
}.

(** Every pending timer is due later than now and at most 5000 ms from
    now. *)
Definition timely (s : State) : Prop :=
  forall t, In t (timers s) -> now s < due t /\ due t <= now s + 5000.

(** Events other than a new edit. *)
Definition is_edit (e : Event) : bool :=
  match e with EDocumentChanged => true | _ => false end.

(** * Properties *)

(** ** Serialization and file names *)

Lemma typeof_object (v : JsValue) :
  (typeof v =? "object")%string = is_object_value v.
Proof. destruct v; reflexivity. Qed.

(** With the format "json" the serializer call of [save] always returns. *)
Lemma save_export_json_returns (v : JsValue) :
  raises (fst (save_export "json" v)) = false.
Proof. unfold save_export. destruct (typeof v =? "object")%string; reflexivity. Qed.

(** C7, as the code has it: every [generate(gconfig)] makes exactly one call
    of the generation transport, with [gconfig] as it was given and the file
    name "camel-project.zip".  For a structured document (an object, an array
    or [null]) the content is the [spec] put through [JSON.stringify] with
    indent 4, whatever the [encoding] of the session, bound or not; a [spec]
    of any other kind is handed over as it is. *)
Theorem generate_calls_transport_with_json :
  forall (gconfig : GeneratorConfig) (s : State) (enc : option ApiFileEncoding),
    (is_object_value (spec (editor_value s)) = true ->
     trace (generate gconfig (set_encoding enc s))
     = trace s
       ++ [(now s, GenerateAndDownload gconfig
                     (JSON_stringify (spec (editor_value s)) 4) "camel-project.zip")])
    /\ (is_object_value (spec (editor_value s)) = false ->
        trace (generate gconfig (set_encoding enc s))
        = trace s
          ++ [(now s, GenerateAndDownload gconfig
                        (Verbatim (spec (editor_value s))) "camel-project.zip")]).
Proof.
  intros gconfig s enc.
  assert (H : trace (generate gconfig (set_encoding enc s))
              = trace s
                ++ [(now s, GenerateAndDownload gconfig
                              (generate_content (spec (editor_value s)))
                              "camel-project.zip")]) by reflexivity.
  unfold generate_content in H. rewrite typeof_object in H.
  split; intros Hk; rewrite Hk in H; exact H.
Qed.

Lemma generate_calls_transport_with_json_witness :
  is_object_value (spec (editor_value (init YAML petstore))) = true
  /\ trace (generate camel_config (set_encoding (Some YAML) (init YAML petstore)))
     = trace (init YAML petstore)
       ++ [(now (init YAML petstore),
            GenerateAndDownload camel_config
              (JSON_stringify (spec (editor_value (init YAML petstore))) 4)
              "camel-project.zip")].
Proof.
  assert (Hk : is_object_value (spec (editor_value (init YAML petstore))) = true)
    by reflexivity.
  split; [exact Hk|].
  exact (proj1 (generate_calls_transport_with_json camel_config (init YAML petstore)
                  (Some YAML)) Hk).
Defined.

(** C7 fails for a document that is already text: it is handed to the
    generation transport as it is, not serialized as JSON. *)
Lemma generate_sends_text_unserialized :
  trace (generate camel_config (init YAML petstore_text))
  = [(0, GenerateAndDownload camel_config (Verbatim (spec petstore_text))
           "camel-project.zip")]
  /\ Verbatim (spec petstore_text) <> JSON_stringify (spec petstore_text) 4.
Proof.
  split; [reflexivity | discriminate].
Qed.

(** C8, as the code has it: for a structured document, a [save(format)]
    that reaches the export transport calls it with "openapi-spec.json" when
    [format] is "json" and with "openapi-spec.yaml" otherwise, the content
    being serialized accordingly.  It reaches the transport unless the format
    is not "json" and [YAML.safeDump] raises (an [undefined] in the
    document): then the exception goes to the caller, the transport is not
    called and no promise is returned. *)
Theorem save_filename_of_structured :
  forall (format : string) (s : State),
    is_object_value (spec (editor_value s)) = true ->
    trace (save format s)
    = trace s ++
      [(now s,
        if (format =? "json")%string
        then DownloadToFS (JSON_stringify (spec (editor_value s)) 4)
               "application/json" "openapi-spec.json"
        else if has_undefined (spec (editor_value s))
             then Uncaught "YAMLException"
             else DownloadToFS (YAML_safeDump (spec (editor_value s)) dump_options)
                    "application/json" "openapi-spec.yaml")]
    /\ promises (save format s)
       = if (format =? "json")%string || negb (has_undefined (spec (editor_value s)))
         then (next_promise s, Pending save_chain) :: promises s
         else promises s.
Proof.
  intros format s Hobj.
  unfold save, save_with, save_export. cbn [editor_value set_generateError].
  rewrite typeof_object, Hobj.
  destruct (format =? "json")%string; cbn [raises orb]; [split; reflexivity|].
  destruct (has_undefined (spec (editor_value s))); split; reflexivity.
Qed.

Lemma save_filename_of_structured_witness :
  is_object_value (spec (editor_value (init YAML petstore))) = true
  /\ trace (save "yaml" (init YAML petstore))
     = trace (init YAML petstore) ++
       [(now (init YAML petstore),
         if ("yaml" =? "json")%string
         then DownloadToFS (JSON_stringify (spec (editor_value (init YAML petstore))) 4)
                "application/json" "openapi-spec.json"
         else if has_undefined (spec (editor_value (init YAML petstore)))
              then Uncaught "YAMLException"
              else DownloadToFS
                     (YAML_safeDump (spec (editor_value (init YAML petstore)))
                        dump_options)
                     "application/json" "openapi-spec.yaml")].
Proof.
  assert (Hk : is_object_value (spec (editor_value (init YAML petstore))) = true)
    by reflexivity.
  split; [exact Hk|].
  exact (proj1 (save_filename_of_structured "yaml" (init YAML petstore) Hk)).
Defined.

(** The three ways out of [save] for a structured document. *)
Example save_exports :
  trace (save "json" (init YAML petstore))
  = [(0, DownloadToFS (JSON_stringify (spec petstore) 4)
           "application/json" "openapi-spec.json")]
  /\ trace (save "yaml" (init YAML petstore))
     = [(0, DownloadToFS (YAML_safeDump (spec petstore) dump_options)
              "application/json" "openapi-spec.yaml")]
  /\ trace (save "yaml" (init YAML petstore_undefined))
     = [(0, Uncaught "YAMLException")].
Proof. repeat split; vm_compute; reflexivity. Qed.

(** C8 fails for a document that is already text: the file name is the bare
    "openapi-spec", whatever the format asked for. *)
Lemma save_filename_of_text_has_no_extension :
  trace (save "json" (init JSON petstore_text))
  = [(0, DownloadToFS (Verbatim (spec petstore_text)) "application/json" "openapi-spec")]
  /\ "openapi-spec" <> "openapi-spec.json".
Proof.
  split; [reflexivity | discriminate].
Qed.

(** C9, as the code has it: for a structured document, [saveExt()] with the
    encoding JSON, or with the encoding YAML when [YAML.safeDump] returns,
    sends exactly one host message, "save-req", carrying the [spec]
    serialized per that encoding.  When [YAML.safeDump] raises (an
    [undefined] in the document) the exception goes to the caller and no
    message is sent; with no encoding bound the object is sent as it is.  In
    every case no transport is called and the recovery store, the timers and
    the persistence handle are what they were. *)
Theorem saveExt_of_structured :
  forall s : State,
    is_object_value (spec (editor_value s)) = true ->
    trace (saveExt s)
    = trace s ++
      [(now s,
        match encoding s with
        | Some JSON => SendMessage "save-req" (JSON_stringify (spec (editor_value s)) 4)
        | Some YAML =>
            if has_undefined (spec (editor_value s))
            then Uncaught "YAMLException"
            else SendMessage "save-req"
                   (YAML_safeDump (spec (editor_value s)) dump_options)
        | None => SendMessage "save-req" (Verbatim (spec (editor_value s)))
        end)]
    /\ promises (saveExt s) = promises s
    /\ storage (saveExt s) = storage s
    /\ timers (saveExt s) = timers s
    /\ persistenceTimeout (saveExt s) = persistenceTimeout s.
Proof.
  intros s Hobj. unfold saveExt. rewrite typeof_object, Hobj.
  destruct (encoding s) as [[|]|]; cbn [raises].
  - repeat split.
  - destruct (has_undefined (spec (editor_value s))); repeat split.
  - repeat split.
Qed.

Lemma saveExt_of_structured_witness :
  is_object_value (spec (editor_value (init YAML petstore))) = true
  /\ trace (saveExt (init YAML petstore))
     = trace (init YAML petstore) ++
       [(now (init YAML petstore),
         match encoding (init YAML petstore) with
         | Some JSON =>
             SendMessage "save-req"
               (JSON_stringify (spec (editor_value (init YAML petstore))) 4)
         | Some YAML =>
             if has_undefined (spec (editor_value (init YAML petstore)))
             then Uncaught "YAMLException"
             else SendMessage "save-req"
                    (YAML_safeDump (spec (editor_value (init YAML petstore)))
                       dump_options)
         | None =>
             SendMessage "save-req" (Verbatim (spec (editor_value (init YAML petstore))))
         end)].
Proof.
  assert (Hk : is_object_value (spec (editor_value (init YAML petstore))) = true)
    by reflexivity.
  split; [exact Hk|].
  exact (proj1 (saveExt_of_structured (init YAML petstore) Hk)).
Defined.

(** What [saveExt] sends for a structured document, by encoding. *)
Example saveExt_messages :
  trace (saveExt (init JSON petstore))
  = [(0, SendMessage "save-req" (JSON_stringify (spec petstore) 4))]
  /\ trace (saveExt (init YAML petstore))
     = [(0, SendMessage "save-req" (YAML_safeDump (spec petstore) dump_options))]
  /\ trace (saveExt (init YAML petstore_undefined)) = [(0, Uncaught "YAMLException")]
  /\ trace (saveExt (set_encoding None (init YAML petstore)))
     = [(0, SendMessage "save-req" (Verbatim (spec petstore)))].
Proof. repeat split; vm_compute; reflexivity. Qed.

(** C9 fails for a document that is already text: [saveExt()] sends no host
    message at all. *)
Lemma saveExt_of_text_sends_nothing :
  trace (saveExt (init YAML petstore_text)) = []
  /\ saveExt (init YAML petstore_text) = init YAML petstore_text.
Proof.
  split; reflexivity.
Qed.

(** ** Timers: what a run of the clock leaves alone *)

Lemma fire_untimed (t : Timer) (s : State) : untimed (fire t s) = untimed s.
Proof. unfold fire. destruct (cb t); reflexivity. Qed.

Lemma run_timers_untimed (fuel : nat) (target : N) (s : State) :
  untimed (run_timers fuel target s) = untimed s.
Proof.
  revert s. induction fuel as [|fuel IH]; intros s; cbn [run_timers].
  - reflexivity.
  - destruct (next_due (timers s)) as [t|]; [|reflexivity].
    destruct (due t <=? target); [|reflexivity].
    rewrite IH. apply fire_untimed.
Qed.

Lemma advance_untimed (ms : N) (s : State) : untimed (advance ms s) = untimed s.
Proof. apply run_timers_untimed. Qed.

Ltac untimed_fields H :=
  unfold untimed in H;
  injection H as ?Hgenerating ?HgenerateError ?HshowErrorToast ?HtoastTimeoutId
                  ?Hencoding ?Heditor_value ?Hpromises ?Hnext_promise ?Hnext_timer.

Lemma advance_generateError (ms : N) (s : State) :
  generateError (advance ms s) = generateError s.
Proof. pose proof (advance_untimed ms s) as H. untimed_fields H. assumption. Qed.

Lemma advance_showErrorToast (ms : N) (s : State) :
  showErrorToast (advance ms s) = showErrorToast s.
Proof. pose proof (advance_untimed ms s) as H. untimed_fields H. assumption. Qed.

Lemma advance_promises (ms : N) (s : State) :
  promises (advance ms s) = promises s.
Proof. pose proof (advance_untimed ms s) as H. untimed_fields H. assumption. Qed.

Lemma advance_editor_value (ms : N) (s : State) :
  editor_value (advance ms s) = editor_value s.
Proof. pose proof (advance_untimed ms s) as H. untimed_fields H. assumption. Qed.

(** A hidden success toast is not brought back by a timer. *)
Lemma run_timers_success_hidden (fuel : nat) (target : N) (s : State) :
  showSuccessToast s = false -> showSuccessToast (run_timers fuel target s) = false.
Proof.
  revert s. induction fuel as [|fuel IH]; intros s Hs; cbn [run_timers].
  - exact Hs.
  - destruct (next_due (timers s)) as [t|]; [|exact Hs].
    destruct (due t <=? target); [|exact Hs].
    apply IH. unfold fire. destruct (cb t); cbn; auto.
Qed.

(** *** The earliest timer *)

Lemma next_due_In (ts : list Timer) (t : Timer) :
  next_due ts = Some t -> In t ts.
Proof.
  revert t. induction ts as [|a r IH]; intros t; cbn [next_due].
  - discriminate.
  - destruct (next_due r) as [u|].
    + destruct (earlier a u); intros [= <-]; [left | right]; auto.
    + intros [= <-]. left; reflexivity.
Qed.

Lemma next_due_None (ts : list Timer) : next_due ts = None -> ts = [].
Proof.
  destruct ts as [|a r]; cbn [next_due]; [reflexivity|].
  destruct (next_due r) as [u|]; [destruct (earlier a u)|]; discriminate.
Qed.

Lemma next_due_least (ts : list Timer) (t u : Timer) :
  next_due ts = Some t -> In u ts -> due t <= due u.
Proof.
  revert t u. induction ts as [|a r IH]; intros t u; cbn [next_due].
  - discriminate.
  - destruct (next_due r) as [v|] eqn:Hr.
    + destruct (earlier a v) eqn:Hav; intros [= <-] [<- | Hin].
      * lia.
      * specialize (IH v u eq_refl Hin). unfold earlier in Hav.
        apply orb_prop in Hav. destruct Hav as [H | H].
        -- apply N.ltb_lt in H. lia.
        -- apply andb_prop in H. destruct H as [H _]. apply N.eqb_eq in H. lia.
      * unfold earlier in Hav. apply orb_false_elim in Hav.
        destruct Hav as [H _]. apply N.ltb_ge in H. exact H.
      * apply (IH v u eq_refl Hin).
    + apply next_due_None in Hr. subst r. intros [= <-] [<- | []]. lia.
Qed.

(** ** The timer table stays well formed *)

Lemma NoDup_map_filter {A B : Type} (g : A -> B) (f : A -> bool) (l : list A) :
  NoDup (map g l) -> NoDup (map g (filter f l)).
Proof.
  induction l as [|a l IH]; cbn [map filter]; intros H; [constructor|].
  inversion H as [|x xs Hnotin Hnd]; subst.
  destruct (f a); cbn [map]; auto.
  constructor; auto.
  intros Hin. apply Hnotin. apply in_map_iff in Hin.
  destruct Hin as [b [Hb Hin]]. apply filter_In in Hin.
  apply in_map_iff. exists b. tauto.
Qed.

Lemma wf_ext (s s' : State) :
  timers s' = timers s -> next_timer s' = next_timer s ->
  persistenceTimeout s' = persistenceTimeout s -> wf s -> wf s'.
Proof.
  intros Ht Hn Hp [H1 H2 H3 H4].
  constructor; rewrite ?Ht, ?Hn, ?Hp; assumption.
Qed.

Lemma init_wf (enc : ApiFileEncoding) (doc : ApiDefinition) : wf (init enc doc).
Proof.
  constructor; cbn; try lia; try constructor; intros t [].
Qed.

(** Dropping timers by handle. *)
Lemma wf_drop (id : N) (s : State) :
  wf s -> wf (set_timers (filter (fun t => negb (tid t =? id)) (timers s)) s).
Proof.
  intros [H1 H2 H3 H4]. constructor; cbn.
  - assumption.
  - intros t Ht. apply filter_In in Ht. apply H2. tauto.
  - apply NoDup_map_filter. assumption.
  - intros t Ht. apply filter_In in Ht. apply H4. tauto.
Qed.

Lemma clearTimeout_wf (h : option N) (s : State) : wf s -> wf (clearTimeout h s).
Proof.
  destruct h as [id|]; cbn [clearTimeout]; [apply wf_drop | auto].
Qed.

(** Once the timer that [persistenceTimeout] holds is dropped, no persistence
    timer is left. *)
Lemma drop_handle_no_persist (id : N) (s : State) (t : Timer) :
  wf s -> persistenceTimeout s = Some id ->
  In t (filter (fun u => negb (tid u =? id)) (timers s)) -> cb t <> PersistCb.
Proof.
  intros Hwf Hh Ht Hcb. apply filter_In in Ht. destruct Ht as [Hin Hne].
  pose proof (wf_handle s Hwf t Hin Hcb) as H. rewrite Hh in H.
  injection H as ->. rewrite N.eqb_refl in Hne. discriminate.
Qed.

(** A falsy handle means no persistence timer is pending. *)
Lemma falsy_handle_no_persist (s : State) (t : Timer) :
  wf s -> truthy (persistenceTimeout s) = false -> In t (timers s) ->
  cb t <> PersistCb.
Proof.
  intros Hwf Hf Hin Hcb.
  pose proof (wf_handle s Hwf t Hin Hcb) as H. rewrite H in Hf. cbn in Hf.
  destruct (wf_ids s Hwf t Hin) as [Hpos _].
  apply negb_false_iff, N.eqb_eq in Hf. lia.
Qed.

(** Scheduling a timer on a table without persistence timers, or a timer
    that is not a persistence timer. *)
Lemma wf_schedule (c : Callback) (delay : N) (h : option N) (s : State) :
  wf s ->
  (c = PersistCb -> h = Some (next_timer s)
                    /\ forall t, In t (timers s) -> cb t <> PersistCb) ->
  (c <> PersistCb -> h = persistenceTimeout s) ->
  wf (set_persistenceTimeout h (snd (setTimeout c delay s))).
Proof.
  intros [H1 H2 H3 H4] Hp Hnp. constructor; cbn.
  - lia.
  - intros t Ht. apply in_app_or in Ht. destruct Ht as [Ht | [<- | []]]; cbn.
    + specialize (H2 t Ht). lia.
    + lia.
  - rewrite map_app. apply NoDup_app; cbn; auto.
    + constructor; [intros [] | constructor].
    + intros a Ha [<- | []]. apply in_map_iff in Ha.
      destruct Ha as [t [Heq Ht]]. specialize (H2 t Ht). lia.
  - intros t Ht Hcb. apply in_app_or in Ht. destruct Ht as [Ht | [<- | []]].
    + destruct c.
      * destruct (Hp eq_refl) as [_ Hnone]. exfalso. exact (Hnone t Ht Hcb).
      * rewrite Hnp by discriminate. auto.
    + cbn in *. subst c. destruct (Hp eq_refl) as [-> _]. reflexivity.
Qed.

Lemma documentChanged_wf (s : State) : wf s -> wf (documentChanged s).
Proof.
  intros Hwf. unfold documentChanged.
  destruct (truthy (persistenceTimeout s)) eqn:Htr.
  - destruct (persistenceTimeout s) as [id|] eqn:Hh; [|discriminate].
    cbn [clearTimeout].
    set (s1 := set_persistenceTimeout None _).
    assert (Hwf1 : wf s1).
    { pose proof (wf_drop id s Hwf) as [H1 H2 H3 H4]. constructor; auto.
      intros t Ht Hcb. exfalso.
      exact (drop_handle_no_persist id s t Hwf Hh Ht Hcb). }
    change (wf (set_persistenceTimeout (Some (next_timer s1))
                  (snd (setTimeout PersistCb 5000 s1)))).
    apply wf_schedule; auto; [|congruence].
    intros _. split; [reflexivity|].
    intros t Ht. exact (drop_handle_no_persist id s t Hwf Hh Ht).
  - change (wf (set_persistenceTimeout (Some (next_timer s))
                  (snd (setTimeout PersistCb 5000 s)))).
    apply wf_schedule; auto; [|congruence].
    intros _. split; [reflexivity|].
    intros t Ht. exact (falsy_handle_no_persist s t Hwf Htr Ht).
Qed.

Lemma fire_wf (t : Timer) (s : State) : wf s -> In t (timers s) -> wf (fire t s).
Proof.
  intros Hwf Hin. unfold fire.
  pose proof (wf_drop (tid t) s Hwf) as Hd.
  destruct (cb t) eqn:Hcb; cbn [run_callback].
  - destruct Hd as [H1 H2 H3 H4]. constructor; cbn in *; auto.
    intros u Hu Hcu. exfalso.
    refine (drop_handle_no_persist (tid t) s u Hwf _ Hu Hcu).
    exact (wf_handle s Hwf t Hin Hcb).
  - revert Hd. apply wf_ext; reflexivity.
Qed.

Lemma run_timers_wf (fuel : nat) (target : N) (s : State) :
  wf s -> wf (run_timers fuel target s).
Proof.
  revert s. induction fuel as [|fuel IH]; intros s Hwf; cbn [run_timers].
  - revert Hwf. apply wf_ext; reflexivity.
  - destruct (next_due (timers s)) as [t|] eqn:Hn.
    + destruct (due t <=? target).
      * apply IH, fire_wf; auto using next_due_In.
      * revert Hwf. apply wf_ext; reflexivity.
    + revert Hwf. apply wf_ext; reflexivity.
Qed.

Lemma run_then_wf (f : ThenHandler) (v : JsValue) (s : State) :
  wf s -> wf (fst (run_then f v s)).
Proof.
  intros Hwf. destruct f; cbn [run_then fst].
  - revert Hwf. apply wf_ext; reflexivity.
  - revert Hwf. apply wf_ext; reflexivity.
  - set (s1 := set_showSuccessToast true (set_generating false s)).
    assert (Hwf1 : wf s1) by (revert Hwf; apply wf_ext; reflexivity).
    pose proof (wf_schedule HideSuccessCb 5000 (persistenceTimeout s1) s1 Hwf1) as H.
    cbn [setTimeout fst snd] in *.
    refine (wf_ext _ _ _ _ _ (H _ _)); try reflexivity; discriminate.
Qed.

Lemma run_catch_wf (g : CatchHandler) (m : string) (s : State) :
  wf s -> wf (fst (run_catch g m s)).
Proof.
  intros Hwf. destruct g; cbn [run_catch fst].
  revert Hwf. apply wf_ext; reflexivity.
Qed.

Lemma run_chain_wf (c : list Link) (o : Outcome) (s : State) :
  wf s -> wf (fst (run_chain c o s)).
Proof.
  revert o s. induction c as [|l c IH]; intros o s Hwf; cbn [run_chain]; auto.
  destruct l as [f | g], o as [v | m]; auto.
  - pose proof (run_then_wf f v s Hwf) as H.
    destruct (run_then f v s) as [s' r]. apply IH. exact H.
  - pose proof (run_catch_wf g m s Hwf) as H.
    destruct (run_catch g m s) as [s' r]. apply IH. exact H.
Qed.

Lemma settle_wf (id : N) (o : Outcome) (s : State) : wf s -> wf (settle id o s).
Proof.
  intros Hwf. unfold settle.
  destruct (lookup_promise id (promises s)) as [[c | o']|]; auto.
  pose proof (run_chain_wf c o s Hwf) as H.
  destruct (run_chain c o s) as [s' o2]. revert H. apply wf_ext; reflexivity.
Qed.

Lemma step_wf (s : State) (e : Event) : wf s -> wf (step s e).
Proof.
  intros Hwf. destruct e; cbn [step].
  - revert Hwf. apply wf_ext; reflexivity.
  - apply documentChanged_wf, Hwf.
  - unfold saveExt. destruct (typeof _ =? _)%string; auto.
    destruct (raises _); revert Hwf; apply wf_ext; reflexivity.
  - unfold save, save_with. destruct (save_export _ _) as [content filename].
    destruct (raises content); revert Hwf; apply wf_ext; reflexivity.
  - revert Hwf. apply wf_ext; reflexivity.
  - unfold saveAndClose, save_with. destruct (save_export _ _) as [content filename].
    destruct (raises content); revert Hwf; apply wf_ext; reflexivity.
  - revert Hwf. apply wf_ext; reflexivity.
  - unfold closeSuccessToast. apply clearTimeout_wf.
    revert Hwf. apply wf_ext; reflexivity.
  - unfold closeErrorToast. apply clearTimeout_wf.
    revert Hwf. apply wf_ext; reflexivity.
  - apply settle_wf, Hwf.
  - apply run_timers_wf, Hwf.
Qed.

Lemma run_wf (es : list Event) (s : State) : wf s -> wf (run es s).
Proof.
  revert s. induction es as [|e es IH]; intros s Hwf; cbn; auto.
  apply IH, step_wf, Hwf.
Qed.

(** Every state the component can reach is well formed. *)
Lemma reachable_wf (enc : ApiFileEncoding) (doc : ApiDefinition) (es : list Event) :
  wf (run es (init enc doc)).
Proof. apply run_wf, init_wf. Qed.

(** At most one persistence timer is pending in a well-formed table. *)
Lemma wf_one_persistence (s : State) :
  wf s -> (List.length (pending_persistence s) <= 1)%nat.
Proof.
  intros Hwf. unfold pending_persistence.
  assert (Hsame : forall t, In t (timers s) -> is_persist t = true ->
                            persistenceTimeout s = Some (tid t)).
  { intros t Ht Hp. apply (wf_handle s Hwf t Ht).
    unfold is_persist in Hp. destruct (cb t); [reflexivity | discriminate]. }
  pose proof (wf_nodup s Hwf) as Hnd.
  revert Hsame Hnd. generalize (persistenceTimeout s) as h.
  induction (timers s) as [|a l IH]; intros h Hsame Hnd; cbn [filter]; [cbn; lia|].
  inversion Hnd as [|x xs Hnotin Hnd']; subst.
  destruct (is_persist a) eqn:Ha.
  - assert (Hnil : filter is_persist l = []).
    { destruct (filter is_persist l) as [|b r] eqn:Hf; [reflexivity|].
      exfalso. assert (Hb : In b (filter is_persist l)) by (rewrite Hf; left; auto).
      apply filter_In in Hb. destruct Hb as [Hbl Hbp].
      assert (tid a = tid b).
      { pose proof (Hsame a (or_introl eq_refl) Ha) as E1.
        pose proof (Hsame b (or_intror Hbl) Hbp) as E2. congruence. }
      apply Hnotin. cbn. rewrite H. apply in_map. exact Hbl. }
    rewrite Hnil. cbn. lia.
  - apply (IH h); auto. intros t Ht. apply Hsame. right; exact Ht.
Qed.

(** ** The clock and the persistence timer *)

Lemma wf_tid_inj (s : State) (t u : Timer) :
  wf s -> In t (timers s) -> In u (timers s) -> tid t = tid u -> t = u.
Proof.
  intros Hwf. pose proof (wf_nodup s Hwf) as Hnd. revert Hnd.
  induction (timers s) as [|a l IH]; intros Hnd Ht Hu Heq; [destruct Ht|].
  inversion Hnd as [|x xs Hnotin Hnd']; subst.
  destruct Ht as [<- | Ht], Hu as [<- | Hu]; auto.
  - exfalso. apply Hnotin. cbn. rewrite Heq. apply in_map, Hu.
  - exfalso. apply Hnotin. cbn. rewrite <- Heq. apply in_map, Ht.
Qed.

(** In a well-formed table, a timer other than the pending persistence timer
    hides the success toast. *)
Lemma wf_other_is_toast (s : State) (p q : Timer) :
  wf s -> In p (timers s) -> cb p = PersistCb -> In q (timers s) -> q <> p ->
  cb q = HideSuccessCb.
Proof.
  intros Hwf Hp Hcp Hq Hne. destruct (cb q) eqn:Hcq; [|reflexivity].
  exfalso. apply Hne. apply (wf_tid_inj s); auto.
  pose proof (wf_handle s Hwf p Hp Hcp). pose proof (wf_handle s Hwf q Hq Hcq).
  congruence.
Qed.

Lemma run_timers_now (fuel : nat) (target : N) (s : State) :
  now (run_timers fuel target s) = target.
Proof.
  revert s. induction fuel as [|fuel IH]; intros s; cbn [run_timers]; [reflexivity|].
  destruct (next_due (timers s)) as [t|]; [|reflexivity].
  destruct (due t <=? target); [apply IH | reflexivity].
Qed.

Lemma fire_timers (t : Timer) (s : State) :
  timers (fire t s) = filter (fun u => negb (tid u =? tid t)) (timers s).
Proof. unfold fire. destruct (cb t); reflexivity. Qed.

Lemma run_timers_sub (fuel : nat) (target : N) (s : State) (t : Timer) :
  In t (timers (run_timers fuel target s)) -> In t (timers s).
Proof.
  revert s. induction fuel as [|fuel IH]; intros s; cbn [run_timers]; auto.
  destruct (next_due (timers s)) as [q|]; auto.
  destruct (due q <=? target); auto.
  intros H. apply IH in H. rewrite fire_timers in H. apply filter_In in H. tauto.
Qed.

Lemma writes_emit (e : Effect) (s : State) :
  writes (emit e s) = writes s ++ filter is_store [(now s, e)].
Proof. unfold writes. cbn [emit trace]. apply filter_app. Qed.

Lemma fire_toast_writes (t : Timer) (s : State) :
  cb t = HideSuccessCb ->
  writes (fire t s) = writes s /\ editor_value (fire t s) = editor_value s
  /\ persistenceTimeout (fire t s) = persistenceTimeout s.
Proof. intros H. unfold fire. rewrite H. repeat split. Qed.

(** Without a pending persistence timer the clock writes nothing. *)
Lemma run_timers_no_persist (fuel : nat) (target : N) (s : State) :
  (forall t, In t (timers s) -> cb t <> PersistCb) ->
  writes (run_timers fuel target s) = writes s.
Proof.
  revert s. induction fuel as [|fuel IH]; intros s Hno; cbn [run_timers]; auto.
  destruct (next_due (timers s)) as [q|] eqn:Hq; auto.
  destruct (due q <=? target); auto.
  assert (Hcq : cb q = HideSuccessCb).
  { pose proof (Hno q (next_due_In _ _ Hq)). destruct (cb q); congruence. }
  rewrite IH.
  - apply fire_toast_writes, Hcq.
  - intros t Ht. rewrite fire_timers in Ht. apply filter_In in Ht. apply Hno. tauto.
Qed.

(** A persistence timer that is not yet due outlives the run of the clock,
    and nothing is written. *)
Lemma run_timers_quiet (fuel : nat) (target : N) (s : State) (p : Timer) :
  wf s -> In p (timers s) -> cb p = PersistCb -> target < due p ->
  In p (timers (run_timers fuel target s))
  /\ writes (run_timers fuel target s) = writes s.
Proof.
  revert s. induction fuel as [|fuel IH]; intros s Hwf Hp Hcp Hlt;
    cbn [run_timers]; auto.
  destruct (next_due (timers s)) as [q|] eqn:Hq; auto.
  destruct (due q <=? target) eqn:Hdue; auto.
  apply N.leb_le in Hdue.
  pose proof (next_due_In _ _ Hq) as Hqin.
  assert (Hne : q <> p) by (intros ->; lia).
  pose proof (wf_other_is_toast s p q Hwf Hp Hcp Hqin Hne) as Hcq.
  destruct (fire_toast_writes q s Hcq) as [Hw _].
  rewrite <- Hw. apply IH; auto.
  - apply fire_wf; auto.
  - rewrite fire_timers. apply filter_In. split; auto.
    apply negb_true_iff, N.eqb_neq. intros Heq. apply Hne.
    symmetry. apply (wf_tid_inj s); auto.
Qed.

Lemma filter_drop_length (id : N) (q : Timer) (l : list Timer) :
  In q l -> tid q = id ->
  (List.length (filter (fun u => negb (tid u =? id)%N) l) < List.length l)%nat.
Proof.
  intros Hin <-. induction l as [|a l IH]; [destruct Hin|]. cbn [filter].
  destruct Hin as [-> | Hin].
  - rewrite N.eqb_refl. cbn [negb List.length].
    pose proof (filter_length_le (fun u => negb (tid u =? tid q)) l). lia.
  - specialize (IH Hin). destruct (negb (tid a =? tid q)); cbn [List.length]; lia.
Qed.

(** A persistence timer that comes due fires once, at its deadline, and
    writes the document the editor holds. *)
Lemma run_timers_persist (fuel : nat) (target : N) (s : State) (p : Timer) :
  wf s -> In p (timers s) -> cb p = PersistCb ->
  now s <= due p -> due p <= target -> (List.length (timers s) <= fuel)%nat ->
  writes (run_timers fuel target s)
  = writes s ++ [(due p, StorageStore (editor_value s))]
  /\ pending_persistence (run_timers fuel target s) = [].
Proof.
  revert s. induction fuel as [|fuel IH]; intros s Hwf Hp Hcp Hnow Hdue Hlen.
  - destruct (timers s); [destruct Hp | cbn in Hlen; lia].
  - cbn [run_timers].
    destruct (next_due (timers s)) as [q|] eqn:Hq;
      [|apply next_due_None in Hq; rewrite Hq in Hp; destruct Hp].
    pose proof (next_due_In _ _ Hq) as Hqin.
    pose proof (next_due_least _ _ p Hq Hp) as Hle.
    replace (due q <=? target) with true by (symmetry; apply N.leb_le; lia).
    assert (Hshrink : (List.length (timers (fire q s)) <= fuel)%nat).
    { rewrite fire_timers.
      pose proof (filter_drop_length (tid q) q (timers s) Hqin eq_refl). lia. }
    assert (Hdec : q = p \/ q <> p).
    { destruct (N.eq_dec (tid q) (tid p)) as [E | E].
      - left. apply (wf_tid_inj s); auto.
      - right. congruence. }
    destruct Hdec as [-> | Hne].
    + assert (Hnone : forall t, In t (timers (fire p s)) -> cb t <> PersistCb).
      { intros t Ht. rewrite fire_timers in Ht.
        apply (drop_handle_no_persist (tid p) s t Hwf); auto.
        apply (wf_handle s Hwf p Hp Hcp). }
      split.
      * rewrite run_timers_no_persist by exact Hnone.
        unfold fire. rewrite Hcp. unfold writes. cbn.
        rewrite filter_app. cbn. rewrite N.max_r by lia. reflexivity.
      * unfold pending_persistence.
        destruct (filter is_persist _) as [|t r] eqn:Hf; [reflexivity|].
        exfalso. assert (Ht : In t (filter is_persist (timers
                   (run_timers fuel target (fire p s))))) by (rewrite Hf; left; auto).
        apply filter_In in Ht. destruct Ht as [Ht Hpt].
        apply run_timers_sub in Ht. apply Hnone in Ht.
        unfold is_persist in Hpt. destruct (cb t); congruence.
    + pose proof (wf_other_is_toast s p q Hwf Hp Hcp Hqin Hne) as Hcq.
      destruct (fire_toast_writes q s Hcq) as [Hw [Hv _]].
      rewrite <- Hw, <- Hv. apply IH; auto.
      * apply fire_wf; auto.
      * rewrite fire_timers. apply filter_In. split; auto.
        apply negb_true_iff, N.eqb_neq. intros Heq. apply Hne.
        symmetry. apply (wf_tid_inj s); auto.
      * unfold fire. rewrite Hcq. cbn. lia.
Qed.

(** One round per pending timer is enough: after [advance] no timer that was
    due is left in the table. *)
Lemma run_timers_complete (fuel : nat) (target : N) (s : State) (t : Timer) :
  (List.length (timers s) <= fuel)%nat ->
  In t (timers (run_timers fuel target s)) -> target < due t.
Proof.
  revert s. induction fuel as [|fuel IH]; intros s Hlen.
  - cbn [run_timers]. destruct (timers s) eqn:E; cbn in *; [rewrite E; intros []| lia].
  - cbn [run_timers]. destruct (next_due (timers s)) as [q|] eqn:Hq.
    + pose proof (next_due_In _ _ Hq) as Hqin.
      destruct (due q <=? target) eqn:Hdue.
      * apply IH. rewrite fire_timers.
        pose proof (filter_drop_length (tid q) q (timers s) Hqin eq_refl). lia.
      * cbn. intros Ht. apply N.leb_gt in Hdue.
        pose proof (next_due_least _ _ t Hq Ht). lia.
    + apply next_due_None in Hq. cbn. rewrite Hq. intros [].
Qed.

Lemma advance_complete (ms : N) (s : State) (t : Timer) :
  In t (timers (advance ms s)) -> now s + ms < due t.
Proof. apply run_timers_complete. lia. Qed.

Lemma run_app (es es' : list Event) (s : State) :
  run (es ++ es') s = run es' (run es s).
Proof. apply fold_left_app. Qed.

(** ** Debounce *)

(** After [documentChanged()] a persistence timer is pending, due 5000 ms
    from now. *)
Lemma documentChanged_arms (s : State) :
  exists p, In p (timers (documentChanged s)) /\ cb p = PersistCb
            /\ due p = now s + 5000
            /\ now (documentChanged s) = now s
            /\ editor_value (documentChanged s) = editor_value s
            /\ writes (documentChanged s) = writes s.
Proof.
  assert (Hlast : forall (l : list Timer) (p : Timer), In p (l ++ [p])).
  { intros l p. apply in_or_app. right. left. reflexivity. }
  unfold documentChanged. destruct (truthy (persistenceTimeout s)).
  - destruct (persistenceTimeout s) as [id|]; cbn;
      eexists; split; try apply Hlast; repeat split.
  - cbn. eexists. split; try apply Hlast. repeat split.
Qed.

Lemma edit_armed (v : ApiDefinition) (s : State) :
  wf s ->
  armed v (run (edit v) s) /\ now (run (edit v) s) = now s
  /\ writes (run (edit v) s) = writes s.
Proof.
  intros Hwf. cbn [run edit fold_left step].
  set (s1 := set_editor_value v s).
  assert (Hwf1 : wf s1) by (revert Hwf; apply wf_ext; reflexivity).
  destruct (documentChanged_arms s1) as [p [Hp [Hcp [Hd [Hn [Hv Hw]]]]]].
  split; [|split; assumption].
  split; [apply documentChanged_wf, Hwf1|].
  split; [exact Hv|].
  exists p. rewrite Hn. auto.
Qed.

Lemma later_edits_armed (l : list (N * ApiDefinition)) :
  forall (v : ApiDefinition) (s : State),
    armed v s -> Forall (fun gv => fst gv < 5000) l ->
    armed (last_value v l) (run (later_edits l) s)
    /\ now (run (later_edits l) s) = now s + span l
    /\ writes (run (later_edits l) s) = writes s.
Proof.
  induction l as [|[gap v'] l IH]; intros v s Harmed Hgaps.
  - cbn [later_edits run fold_left last_value span fold_right].
    split; [exact Harmed | split; [lia | reflexivity]].
  - inversion Hgaps as [|x xs Hgap Hgaps']; subst. cbn [fst] in Hgap.
    destruct Harmed as [Hwf [Hv [p [Hp [Hcp Hd]]]]].
    cbn [later_edits]. change (run (EAdvance gap :: edit v' ++ later_edits l) s)
      with (run (edit v' ++ later_edits l) (advance gap s)).
    rewrite run_app.
    assert (Hwf1 : wf (advance gap s)) by (apply run_timers_wf, Hwf).
    assert (Hq : writes (advance gap s) = writes s).
    { apply (run_timers_quiet _ _ s p); auto. lia. }
    assert (Hn1 : now (advance gap s) = now s + gap) by apply run_timers_now.
    destruct (edit_armed v' (advance gap s) Hwf1) as [Ha [Hn2 Hw2]].
    destruct (IH v' _ Ha Hgaps') as [Ha3 [Hn3 Hw3]].
    cbn [last_value fold_left snd span fold_right fst] in *.
    split; [exact Ha3 | split].
    + rewrite Hn3, Hn2, Hn1. unfold span. lia.
    + rewrite Hw3, Hw2, Hq. reflexivity.
Qed.

(** C2: a burst of edits, each less than 5000 ms (5 time units) after the one
    before, then quiet, starting from any state the component can be in
    ([wf], see [reachable_wf]): exactly one write to the recovery store
    follows, 5000 ms after the last edit, of the document as the last edit
    left it; and after every event on the way at most one persistence timer
    is pending. *)
Theorem debounce_one_write_after_last_edit :
  forall (s : State) (v0 : ApiDefinition) (l : list (N * ApiDefinition)) (quiet : N),
    wf s ->
    Forall (fun gv => fst gv < 5000) l ->
    5000 <= quiet ->
    writes (run (burst v0 l ++ [EAdvance quiet]) s)
    = writes s ++ [(now s + span l + 5000, StorageStore (last_value v0 l))]
    /\ pending_persistence (run (burst v0 l ++ [EAdvance quiet]) s) = []
    /\ forall es es', burst v0 l ++ [EAdvance quiet] = es ++ es' ->
         (List.length (pending_persistence (run es s)) <= 1)%nat.
Proof.
  intros s v0 l quiet Hwf Hgaps Hquiet.
  assert (Hall : forall es, (List.length (pending_persistence (run es s)) <= 1)%nat).
  { intros es. apply wf_one_persistence, run_wf, Hwf. }
  unfold burst. rewrite !run_app.
  destruct (edit_armed v0 s Hwf) as [Ha [Hn Hw]].
  destruct (later_edits_armed l v0 _ Ha Hgaps) as [Ha2 [Hn2 Hw2]].
  set (s2 := run (later_edits l) (run (edit v0) s)) in *.
  destruct Ha2 as [Hwf2 [Hv2 [p [Hp [Hcp Hd]]]]].
  cbn [run fold_left step]. unfold advance.
  destruct (run_timers_persist (List.length (timers s2)) (now s2 + quiet) s2 p)
    as [Hwr Hnone]; auto; try lia.
  split; [|split; [exact Hnone | intros es es' _; apply Hall]].
  rewrite Hwr, Hw2, Hw, Hd, Hn2, Hn, Hv2. reflexivity.
Qed.

Lemma debounce_one_write_after_last_edit_witness :
  (wf (init YAML petstore)
   /\ Forall (fun gv : N * ApiDefinition => fst gv < 5000) [(2000, petstore_text)]
   /\ 5000 <= 5000)
  /\ writes (run (burst petstore [(2000, petstore_text)] ++ [EAdvance 5000])
                 (init YAML petstore))
     = writes (init YAML petstore)
       ++ [(now (init YAML petstore) + span [(2000, petstore_text)] + 5000,
            StorageStore (last_value petstore [(2000, petstore_text)]))].
Proof.
  assert (Hwf : wf (init YAML petstore)) by apply init_wf.
  assert (Hgaps : Forall (fun gv : N * ApiDefinition => fst gv < 5000)
                    [(2000, petstore_text)]) by (repeat constructor).
  assert (Hq : 5000 <= 5000) by lia.
  split; [exact (conj Hwf (conj Hgaps Hq))|].
  exact (proj1 (debounce_one_write_after_last_edit (init YAML petstore) petstore
                  [(2000, petstore_text)] 5000 Hwf Hgaps Hq)).
Defined.

(** The scenario of the specification: edits at 0 and at 2000 ms, one write,
    at 7000 ms, of the second document. *)
Example debounce_scenario :
  writes (run (burst petstore [(2000, petstore_text)] ++ [EAdvance 5000])
              (init YAML petstore))
  = [(7000, StorageStore petstore_text)].
Proof. vm_compute. reflexivity. Qed.

(** ** Promises and their callbacks *)

(** The fields no promise callback writes. *)
Lemma run_chain_frame (c : list Link) (o : Outcome) (s : State) :
  promises (fst (run_chain c o s)) = promises s
  /\ next_promise (fst (run_chain c o s)) = next_promise s
  /\ persistenceTimeout (fst (run_chain c o s)) = persistenceTimeout s
  /\ now (fst (run_chain c o s)) = now s.
Proof.
  revert o s. induction c as [|l c IH]; intros o s; cbn [run_chain]; auto.
  destruct l as [f | g], o as [v | m]; auto.
  - destruct f; cbn [run_then setTimeout];
      match goal with |- context [run_chain c ?o' ?s'] =>
        destruct (IH o' s') as [H1 [H2 [H3 H4]]]; rewrite H1, H2, H3, H4 end;
      repeat split.
  - destruct g; cbn [run_catch].
    match goal with |- context [run_chain c ?o' ?s'] =>
      destruct (IH o' s') as [H1 [H2 [H3 H4]]]; rewrite H1, H2, H3, H4 end.
    repeat split.
Qed.

(** A rejection runs through [then] callbacks untouched. *)
Lemma run_chain_rejected (c : list Link) (m : string) (s : State) :
  (forall l, In l c -> exists f, l = Then f) ->
  run_chain c (Rejected m) s = (s, Rejected m).
Proof.
  induction c as [|l c IH]; intros Hall; cbn [run_chain]; auto.
  destruct (Hall l (or_introl eq_refl)) as [f ->].
  apply IH. intros l' Hl'. apply Hall. right; exact Hl'.
Qed.

(** Only [CloseAfterSave] sends the "closed" signal. *)
Lemma run_chain_close_free (c : list Link) (o : Outcome) (s : State) :
  ~ In (Then CloseAfterSave) c ->
  closed_signals (fst (run_chain c o s)) = closed_signals s.
Proof.
  revert o s. induction c as [|l c IH]; intros o s Hno; cbn [run_chain]; auto.
  assert (Hno' : ~ In (Then CloseAfterSave) c) by (intros H; apply Hno; right; exact H).
  destruct l as [f | g], o as [v | m]; auto.
  - destruct f; cbn [run_then setTimeout].
    + rewrite IH by exact Hno'. unfold closed_signals. cbn.
      rewrite filter_app. cbn. apply app_nil_r.
    + exfalso. apply Hno. left; reflexivity.
    + rewrite IH by exact Hno'. reflexivity.
  - destruct g; cbn [run_catch]. rewrite IH by exact Hno'. reflexivity.
Qed.

(** No callback hides the error toast. *)
Lemma run_chain_error_shown (c : list Link) (o : Outcome) (s : State) :
  showErrorToast s = true -> showErrorToast (fst (run_chain c o s)) = true.
Proof.
  revert o s. induction c as [|l c IH]; intros o s Hs; cbn [run_chain]; auto.
  destruct l as [f | g], o as [v | m]; auto.
  - destruct f; cbn [run_then setTimeout]; apply IH; exact Hs.
  - destruct g; cbn [run_catch]. apply IH. reflexivity.
Qed.

Lemma lookup_promise_In (id : N) (ps : list (N * Promise)) (p : Promise) :
  lookup_promise id ps = Some p -> In (id, p) ps.
Proof.
  induction ps as [|[i q] ps IH]; cbn [lookup_promise]; [discriminate|].
  destruct (i =? id) eqn:E.
  - apply N.eqb_eq in E. intros [= ->]. left. congruence.
  - intros H. right. auto.
Qed.

Lemma settle_promise_pending (id : N) (o : Outcome) (ps : list (N * Promise))
    (i : N) (c : list Link) :
  In (i, Pending c) (settle_promise id o ps) -> In (i, Pending c) ps /\ i <> id.
Proof.
  unfold settle_promise. intros H. apply in_map_iff in H.
  destruct H as [[j q] [Heq Hin]]. cbn [fst] in Heq.
  destruct (j =? id) eqn:E; [discriminate|].
  injection Heq as -> ->. apply N.eqb_neq in E. auto.
Qed.

Lemma settle_promise_other (id : N) (o : Outcome) (ps : list (N * Promise)) (i : N) :
  i <> id -> lookup_promise i (settle_promise id o ps) = lookup_promise i ps.
Proof.
  intros Hne. unfold settle_promise.
  induction ps as [|[j q] ps IH]; cbn [map lookup_promise fst]; [reflexivity|].
  destruct (j =? id) eqn:E; cbn [lookup_promise]; rewrite IH; [|reflexivity].
  apply N.eqb_eq in E. subst j.
  replace (id =? i) with false by (symmetry; apply N.eqb_neq; congruence).
  reflexivity.
Qed.

Lemma settle_promise_same (id : N) (o : Outcome) (ps : list (N * Promise)) (p : Promise) :
  lookup_promise id ps = Some p ->
  lookup_promise id (settle_promise id o ps) = Some (Settled o).
Proof.
  unfold settle_promise.
  induction ps as [|[j q] ps IH]; cbn [map lookup_promise fst]; [discriminate|].
  destruct (j =? id) eqn:E; cbn [lookup_promise]; rewrite E; auto.
Qed.

(** ** What each event leaves alone *)

Lemma step_keeps_error_toast (s : State) (e : Event) :
  dismisses_error e = false -> showErrorToast s = true ->
  showErrorToast (step s e) = true.
Proof.
  intros He Hs. destruct e; cbn [step]; try discriminate He; auto.
  - unfold documentChanged. destruct (truthy (persistenceTimeout s)); auto.
    destruct (persistenceTimeout s); auto.
  - unfold saveExt. destruct (typeof _ =? _)%string; auto.
    destruct (raises _); auto.
  - unfold save, save_with. destruct (save_export _ _) as [content filename].
    destruct (raises content); auto.
  - unfold saveAndClose, save_with. destruct (save_export _ _) as [content filename].
    destruct (raises content); auto.
  - unfold closeSuccessToast. destruct (toastTimeoutId s); auto.
  - unfold settle. destruct (lookup_promise id (promises s)) as [[c | o']|]; auto.
    pose proof (run_chain_error_shown c o s Hs) as H.
    destruct (run_chain c o s) as [s' o2]. exact H.
  - rewrite advance_showErrorToast. exact Hs.
Qed.

Lemma run_keeps_error_toast (es : list Event) (s : State) :
  Forall (fun e => dismisses_error e = false) es -> showErrorToast s = true ->
  showErrorToast (run es s) = true.
Proof.
  revert s. induction es as [|e es IH]; intros s Hes Hs; cbn; auto.
  inversion Hes; subst. apply IH; auto. apply step_keeps_error_toast; auto.
Qed.

Lemma run_chain_keeps_message (c : list Link) (o : Outcome) (s : State) :
  chain_writes_message c (is_rejected o) = false ->
  generateError (fst (run_chain c o s)) = generateError s.
Proof.
  revert o s. induction c as [|l c IH]; intros o s Hc; cbn [run_chain]; auto.
  destruct l as [f | g], o as [v | m]; cbn [chain_writes_message is_rejected] in Hc.
  - destruct f; try discriminate Hc; cbn [run_then setTimeout];
      rewrite IH by exact Hc; reflexivity.
  - apply IH. exact Hc.
  - destruct g. apply IH. exact Hc.
  - destruct g. discriminate Hc.
Qed.

Lemma step_keeps_message (s : State) (e : Event) :
  writes_message s e = false -> generateError (step s e) = generateError s.
Proof.
  intros He. destruct e; cbn [step]; try discriminate He; auto.
  - unfold documentChanged. destruct (truthy (persistenceTimeout s)); auto.
    destruct (persistenceTimeout s); auto.
  - unfold saveExt. destruct (typeof _ =? _)%string; auto.
    destruct (raises _); auto.
  - unfold closeSuccessToast. destruct (toastTimeoutId s); auto.
  - unfold closeErrorToast. destruct (toastTimeoutId s); auto.
  - cbn [writes_message] in He. unfold settle.
    destruct (lookup_promise id (promises s)) as [[c | o']|]; auto.
    pose proof (run_chain_keeps_message c o s He) as H.
    destruct (run_chain c o s) as [s' o2]. exact H.
  - apply advance_generateError.
Qed.

Lemma run_keeps_message (es : list Event) (s : State) :
  message_untouched es s -> generateError (run es s) = generateError s.
Proof.
  revert s. induction es as [|e es IH]; intros s Hes; cbn; auto.
  destruct Hes as [He Hes]. unfold run in IH. rewrite IH by exact Hes.
  apply step_keeps_message, He.
Qed.

(** ** Recovery state on save and close *)

(** C1, as the code has it: after every [close()], and after a successful
    [save()] (alone or as the first half of [saveAndClose()]), the recovery
    store holds no snapshot; the timer table and [persistenceTimeout] are what
    they were, so a persistence timer that was pending is pending still. *)
Theorem save_and_close_clear_store_only :
  forall s : State,
    (storage (close s) = None
     /\ timers (close s) = timers s
     /\ persistenceTimeout (close s) = persistenceTimeout s)
    /\ (forall (id : N) (c : list Link) (rval : JsValue),
          lookup_promise id (promises s) = Some (Pending c) ->
          c = save_chain \/ c = saveAndClose_chain ->
          storage (settle id (Fulfilled rval) s) = None
          /\ timers (settle id (Fulfilled rval) s) = timers s
          /\ persistenceTimeout (settle id (Fulfilled rval) s) = persistenceTimeout s).
Proof.
  intros s. split; [repeat split|].
  intros id c rval Hl Hc. unfold settle. rewrite Hl.
  destruct Hc as [-> | ->]; cbn; repeat split.
Qed.

Lemma save_and_close_clear_store_only_witness :
  (storage (close edited) = None /\ timers (close edited) = timers edited)
  /\ lookup_promise 0 (promises (run [EDocumentChanged; ESave "json"] (init YAML petstore)))
     = Some (Pending save_chain)
  /\ storage (settle 0 (Fulfilled (JsBoolean true))
                (run [EDocumentChanged; ESave "json"] (init YAML petstore))) = None
  /\ timers (settle 0 (Fulfilled (JsBoolean true))
               (run [EDocumentChanged; ESave "json"] (init YAML petstore)))
     = timers (run [EDocumentChanged; ESave "json"] (init YAML petstore)).
Proof.
  assert (Hl : lookup_promise 0
                 (promises (run [EDocumentChanged; ESave "json"] (init YAML petstore)))
               = Some (Pending save_chain)) by (vm_compute; reflexivity).
  pose proof (save_and_close_clear_store_only edited) as [[Hc [Hct _]] _].
  split; [exact (conj Hc Hct)|]. split; [exact Hl|].
  pose proof (proj2 (save_and_close_clear_store_only
                       (run [EDocumentChanged; ESave "json"] (init YAML petstore)))
                0 save_chain (JsBoolean true) Hl (or_introl (eq_refl save_chain))) as H.
  destruct H as [Hs [Ht _]]. split; [exact Hs | exact Ht].
Defined.

(** C1 fails on the timer: an edit followed within 5000 ms by [close()], or
    by a [save()] that succeeds, leaves the persistence timer pending, and
    when it fires the recovery store holds a snapshot again. *)
Lemma persistence_timer_outlives_save_and_close :
  (pending_persistence (run [EDocumentChanged; EClose] (init YAML petstore))
   = [{| tid := 1; due := 5000; cb := PersistCb |}]
   /\ storage (run [EDocumentChanged; EClose; EAdvance 5000] (init YAML petstore))
      = Some petstore)
  /\ (pending_persistence
        (run [EDocumentChanged; ESave "json"; ESettle 0 (Fulfilled (JsBoolean true))]
             (init YAML petstore))
      = [{| tid := 1; due := 5000; cb := PersistCb |}]
      /\ storage
           (run [EDocumentChanged; ESave "json"; ESettle 0 (Fulfilled (JsBoolean true));
                 EAdvance 5000] (init YAML petstore))
         = Some petstore).
Proof.
  repeat split; vm_compute; reflexivity.
Qed.

(** ** Generation and the toasts *)

(** C3: when the transport call of a [generate(gconfig)] rejects with message
    [m], the component has [generating] false, [generateError] equal to [m]
    and the error toast shown; the callback schedules no timer and leaves
    [toastTimeoutId] alone; and the error state stays: no passage of time and
    no event other than the close button of the toast or a new [generate()]
    hides the toast, and the message is kept by time and by every event that
    does not write [generateError]. *)
Theorem generate_rejected_error_persists :
  forall (s : State) (id : N) (m : string),
    lookup_promise id (promises s) = Some (Pending generate_chain) ->
    (generating (settle id (Rejected m) s) = false
     /\ generateError (settle id (Rejected m) s) = Some m
     /\ showErrorToast (settle id (Rejected m) s) = true)
    /\ (timers (settle id (Rejected m) s) = timers s
        /\ toastTimeoutId (settle id (Rejected m) s) = toastTimeoutId s)
    /\ (forall es, Forall (fun e => dismisses_error e = false) es ->
                   showErrorToast (run es (settle id (Rejected m) s)) = true)
    /\ (forall es, message_untouched es (settle id (Rejected m) s) ->
                   generateError (run es (settle id (Rejected m) s)) = Some m)
    /\ (forall ms, showErrorToast (advance ms (settle id (Rejected m) s)) = true
                   /\ generateError (advance ms (settle id (Rejected m) s)) = Some m).
Proof.
  intros s id m Hl.
  assert (Hnow : (generating (settle id (Rejected m) s) = false
                  /\ generateError (settle id (Rejected m) s) = Some m
                  /\ showErrorToast (settle id (Rejected m) s) = true)
                 /\ (timers (settle id (Rejected m) s) = timers s
                     /\ toastTimeoutId (settle id (Rejected m) s) = toastTimeoutId s)).
  { unfold settle. rewrite Hl. cbn. repeat split. }
  destruct Hnow as [[Hg [He Hs]] Ht].
  split; [auto|]. split; [exact Ht|]. split; [|split].
  - intros es Hes. apply run_keeps_error_toast; assumption.
  - intros es Hes. rewrite run_keeps_message by exact Hes. exact He.
  - intros ms. rewrite advance_showErrorToast, advance_generateError. auto.
Qed.

Lemma generate_rejected_error_persists_witness :
  lookup_promise 0 (promises (generate camel_config (init JSON petstore)))
  = Some (Pending generate_chain)
  /\ generateError
       (settle 0 (Rejected "quota exceeded") (generate camel_config (init JSON petstore)))
     = Some "quota exceeded"
  /\ showErrorToast
       (run [EAdvance 3600000; ECloseSuccessToast; ESave "yaml"]
          (settle 0 (Rejected "quota exceeded")
             (generate camel_config (init JSON petstore)))) = true.
Proof.
  assert (Hl : lookup_promise 0 (promises (generate camel_config (init JSON petstore)))
               = Some (Pending generate_chain)) by reflexivity.
  split; [exact Hl|].
  pose proof (generate_rejected_error_persists
                (generate camel_config (init JSON petstore)) 0 "quota exceeded" Hl)
    as [[_ [He _]] [_ [Hrun _]]].
  split; [exact He|].
  apply Hrun. repeat constructor.
Defined.

(** A timer that is not yet due outlives a run of the clock. *)
Lemma run_timers_keeps (fuel : nat) (target : N) (s : State) (t : Timer) :
  wf s -> In t (timers s) -> target < due t ->
  In t (timers (run_timers fuel target s)).
Proof.
  revert s. induction fuel as [|fuel IH]; intros s Hwf Ht Hlt; cbn [run_timers]; auto.
  destruct (next_due (timers s)) as [q|] eqn:Hq; auto.
  destruct (due q <=? target) eqn:Hdue; auto.
  apply N.leb_le in Hdue. pose proof (next_due_In _ _ Hq) as Hqin.
  apply IH; auto.
  - apply fire_wf; auto.
  - rewrite fire_timers. apply filter_In. split; auto.
    apply negb_true_iff, N.eqb_neq. intros Heq.
    assert (t = q) by (apply (wf_tid_inj s); auto). subst. lia.
Qed.

(** A toast timer that comes due leaves the success toast hidden. *)
Lemma run_timers_toast_due (fuel : nat) (target : N) (s : State) (t : Timer) :
  wf s -> In t (timers s) -> cb t = HideSuccessCb ->
  due t <= target -> (List.length (timers s) <= fuel)%nat ->
  showSuccessToast (run_timers fuel target s) = false.
Proof.
  revert s. induction fuel as [|fuel IH]; intros s Hwf Ht Hct Hdue Hlen.
  - destruct (timers s); [destruct Ht | cbn in Hlen; lia].
  - cbn [run_timers].
    destruct (next_due (timers s)) as [q|] eqn:Hq;
      [|apply next_due_None in Hq; rewrite Hq in Ht; destruct Ht].
    pose proof (next_due_In _ _ Hq) as Hqin.
    pose proof (next_due_least _ _ t Hq Ht) as Hle.
    replace (due q <=? target) with true by (symmetry; apply N.leb_le; lia).
    destruct (cb q) eqn:Hcq.
    + apply IH; auto.
      * apply fire_wf; auto.
      * rewrite fire_timers. apply filter_In. split; auto.
        apply negb_true_iff, N.eqb_neq. intros Heq.
        assert (t = q) by (apply (wf_tid_inj s); auto). subst. congruence.
      * rewrite fire_timers.
        pose proof (filter_drop_length (tid q) q (timers s) Hqin eq_refl). lia.
    + apply run_timers_success_hidden. unfold fire. rewrite Hcq. reflexivity.
Qed.

(** C5, as the code has it: the timer [t] of a success toast is pending and
    a generation that is in flight fails with [m].  The component ends with
    the error toast shown and the message [m]; the failure callback writes
    neither the success flag nor the timer table nor [toastTimeoutId], so [t]
    is not cancelled.  It fires at its deadline: by then it has left the
    table and the success toast is hidden, while the error toast and the
    message stay as they are. *)
Theorem generate_failure_keeps_success_timer :
  forall (s : State) (t : Timer) (id : N) (m : string),
    wf s -> In t (timers s) -> cb t = HideSuccessCb ->
    lookup_promise id (promises s) = Some (Pending generate_chain) ->
    (showErrorToast (settle id (Rejected m) s) = true
     /\ generateError (settle id (Rejected m) s) = Some m)
    /\ (showSuccessToast (settle id (Rejected m) s) = showSuccessToast s
        /\ timers (settle id (Rejected m) s) = timers s
        /\ toastTimeoutId (settle id (Rejected m) s) = toastTimeoutId s)
    /\ (forall later,
          due t <= now s + later ->
          ~ In t (timers (advance later (settle id (Rejected m) s)))
          /\ showSuccessToast (advance later (settle id (Rejected m) s)) = false
          /\ showErrorToast (advance later (settle id (Rejected m) s)) = true
          /\ generateError (advance later (settle id (Rejected m) s)) = Some m).
Proof.
  intros s t id m Hwf Ht Hct Hl.
  set (r := settle id (Rejected m) s).
  assert (Hr : (showErrorToast r = true /\ generateError r = Some m)
               /\ (showSuccessToast r = showSuccessToast s /\ timers r = timers s
                   /\ toastTimeoutId r = toastTimeoutId s)
               /\ now r = now s).
  { unfold r, settle. rewrite Hl. cbn. repeat split. }
  destruct Hr as [[He Hm] [[Hs [Htm Hid]] Hnow]].
  assert (Hwfr : wf r) by (unfold r; apply settle_wf, Hwf).
  split; [exact (conj He Hm)|]. split; [exact (conj Hs (conj Htm Hid))|].
  intros later Hdue. split; [|split; [|split]].
  - intros Hin. apply advance_complete in Hin. rewrite Hnow in Hin. lia.
  - apply (run_timers_toast_due _ _ r t); auto.
    + rewrite Htm. exact Ht.
    + rewrite Hnow. exact Hdue.
  - rewrite advance_showErrorToast. exact He.
  - rewrite advance_generateError. exact Hm.
Qed.

Lemma generate_failure_keeps_success_timer_witness :
  (wf first_succeeded /\ In success_timer (timers first_succeeded)
   /\ cb success_timer = HideSuccessCb
   /\ lookup_promise 1 (promises first_succeeded) = Some (Pending generate_chain))
  /\ timers (settle 1 (Rejected "quota exceeded") first_succeeded)
     = timers first_succeeded.
Proof.
  assert (Hwf : wf first_succeeded)
    by (unfold first_succeeded, two_generations; apply run_wf, reachable_wf).
  assert (Hin : In success_timer (timers first_succeeded))
    by (vm_compute; left; reflexivity).
  assert (Hcb : cb success_timer = HideSuccessCb) by reflexivity.
  assert (Hl : lookup_promise 1 (promises first_succeeded)
               = Some (Pending generate_chain)) by (vm_compute; reflexivity).
  split; [exact (conj Hwf (conj Hin (conj Hcb Hl)))|].
  exact (proj1 (proj2 (proj1 (proj2 (generate_failure_keeps_success_timer
                                       first_succeeded success_timer 1
                                       "quota exceeded" Hwf Hin Hcb Hl))))).
Defined.

(** When the failing [generate()] is called after the success toast was
    shown, the call itself hides the success toast, and its timer stays
    pending all the same. *)
Theorem error_after_success_keeps_stale_timer :
  forall (s : State) (t : Timer) (gconfig : GeneratorConfig) (m : string) (ms : N),
    wf s -> In t (timers s) -> cb t = HideSuccessCb -> now s + ms < due t ->
    (showErrorToast (run [EGenerate gconfig; EAdvance ms;
                          ESettle (next_promise s) (Rejected m)] s) = true
     /\ generateError (run [EGenerate gconfig; EAdvance ms;
                            ESettle (next_promise s) (Rejected m)] s) = Some m
     /\ showSuccessToast (run [EGenerate gconfig; EAdvance ms;
                               ESettle (next_promise s) (Rejected m)] s) = false)
    /\ (In t (timers (run [EGenerate gconfig; EAdvance ms;
                           ESettle (next_promise s) (Rejected m)] s))
        /\ toastTimeoutId (run [EGenerate gconfig; EAdvance ms;
                                ESettle (next_promise s) (Rejected m)] s)
           = toastTimeoutId s)
    /\ (forall later,
          due t <= now s + ms + later ->
          ~ In t (timers (run [EGenerate gconfig; EAdvance ms;
                               ESettle (next_promise s) (Rejected m);
                               EAdvance later] s))
          /\ showErrorToast (run [EGenerate gconfig; EAdvance ms;
                                  ESettle (next_promise s) (Rejected m);
                                  EAdvance later] s) = true
          /\ generateError (run [EGenerate gconfig; EAdvance ms;
                                 ESettle (next_promise s) (Rejected m);
                                 EAdvance later] s) = Some m).
Proof.
  intros s t gconfig m ms Hwf Ht Hcb Hlt.
  cbn [run fold_left step].
  set (s1 := generate gconfig s).
  assert (Hwf1 : wf s1) by (revert Hwf; apply wf_ext; reflexivity).
  set (s2 := advance ms s1).
  assert (Hp2 : lookup_promise (next_promise s) (promises s2)
                = Some (Pending generate_chain)).
  { unfold s2. rewrite advance_promises. cbn. rewrite N.eqb_refl. reflexivity. }
  assert (Ht2 : In t (timers s2)) by (apply run_timers_keeps; auto).
  assert (Hs2 : showSuccessToast s2 = false)
    by (apply run_timers_success_hidden; reflexivity).
  assert (Hid2 : toastTimeoutId s2 = toastTimeoutId s).
  { pose proof (advance_untimed ms s1) as H. untimed_fields H. exact HtoastTimeoutId. }
  assert (Hn2 : now s2 = now s + ms) by apply run_timers_now.
  set (s3 := settle (next_promise s) (Rejected m) s2).
  assert (H3 : showErrorToast s3 = true /\ generateError s3 = Some m
               /\ showSuccessToast s3 = showSuccessToast s2
               /\ timers s3 = timers s2 /\ toastTimeoutId s3 = toastTimeoutId s2
               /\ now s3 = now s2).
  { unfold s3, settle. rewrite Hp2. cbn. repeat split. }
  destruct H3 as [He3 [Hm3 [Hs3 [Ht3 [Hid3 Hn3]]]]].
  split; [repeat split; congruence|].
  split; [split; [rewrite Ht3; exact Ht2 | congruence]|].
  intros later Hdue. split; [|split].
  - intros Hin. apply advance_complete in Hin. lia.
  - rewrite advance_showErrorToast. exact He3.
  - rewrite advance_generateError. exact Hm3.
Qed.

Lemma error_after_success_keeps_stale_timer_witness :
  (wf success_shown /\ In success_timer (timers success_shown)
   /\ cb success_timer = HideSuccessCb /\ now success_shown + 2000 < due success_timer)
  /\ In success_timer
       (timers (run [EGenerate camel_config; EAdvance 2000;
                     ESettle (next_promise success_shown) (Rejected "quota exceeded")]
                    success_shown)).
Proof.
  assert (Hwf : wf success_shown) by (apply run_wf, init_wf).
  assert (Hin : In success_timer (timers success_shown))
    by (vm_compute; left; reflexivity).
  assert (Hcb : cb success_timer = HideSuccessCb) by reflexivity.
  assert (Hlt : now success_shown + 2000 < due success_timer)
    by (vm_compute; reflexivity).
  split; [exact (conj Hwf (conj Hin (conj Hcb Hlt)))|].
  exact (proj1 (proj1 (proj2 (error_after_success_keeps_stale_timer
                                success_shown success_timer camel_config
                                "quota exceeded" 2000 Hwf Hin Hcb Hlt)))).
Defined.

(** C5 fails on the timer: the error toast set by a failed [generate()] does
    not cancel the timer of the success toast before it; the timer stays in
    the table and leaves it at its deadline, with no toast closed by hand. *)
Lemma stale_success_timer_fires :
  timers (run [EGenerate camel_config; EAdvance 2000;
               ESettle 1 (Rejected "quota exceeded")] success_shown)
  = [success_timer]
  /\ showErrorToast (run [EGenerate camel_config; EAdvance 2000;
                          ESettle 1 (Rejected "quota exceeded")] success_shown) = true
  /\ timers (run [EGenerate camel_config; EAdvance 2000;
                  ESettle 1 (Rejected "quota exceeded"); EAdvance 3000] success_shown)
     = [].
Proof.
  repeat split; vm_compute; reflexivity.
Qed.

(** ** Save and close *)

Lemma closed_signals_emit (e : Effect) (s : State) :
  closed_signals (emit e s) = closed_signals s ++ filter is_close [(now s, e)].
Proof. unfold closed_signals. cbn [emit trace]. apply filter_app. Qed.

Lemma run_timers_closed_signals (fuel : nat) (target : N) (s : State) :
  closed_signals (run_timers fuel target s) = closed_signals s.
Proof.
  revert s. induction fuel as [|fuel IH]; intros s; cbn [run_timers]; auto.
  destruct (next_due (timers s)) as [q|]; auto.
  destruct (due q <=? target); auto.
  rewrite IH. unfold fire, closed_signals. destruct (cb q); cbn; auto.
  rewrite filter_app. cbn. apply app_nil_r.
Qed.

(** An event that is no call of [close()] or [saveAndClose()] and that does
    not settle a promise in [allowed] sends no "closed" signal, as long as
    only promises in [allowed] have [close()] chained on them. *)
Lemma step_closed_signals (allowed : N -> Prop) (s : State) (e : Event) :
  (forall i c, In (i, Pending c) (promises s) -> In (Then CloseAfterSave) c -> allowed i) ->
  calls_close e = false ->
  (forall j o, e = ESettle j o -> ~ allowed j) ->
  closed_signals (step s e) = closed_signals s
  /\ (forall i c, In (i, Pending c) (promises (step s e)) ->
                  In (Then CloseAfterSave) c -> allowed i).
Proof.
  intros Hinv Hc Hs. destruct e; cbn [step]; try discriminate Hc.
  - split; auto.
  - unfold documentChanged. destruct (truthy (persistenceTimeout s)); [|split; auto].
    destruct (persistenceTimeout s); split; auto.
  - unfold saveExt. destruct (typeof _ =? _)%string; [|split; auto].
    destruct (raises _); (split; auto); unfold throw, sendMessage;
      rewrite closed_signals_emit; apply app_nil_r.
  - unfold save, save_with. destruct (save_export _ _) as [content filename].
    destruct (raises content).
    { split; auto. unfold throw. rewrite closed_signals_emit. apply app_nil_r. }
    split.
    + unfold closed_signals. cbn. rewrite filter_app. apply app_nil_r.
    + cbn. intros i c [Heq | Hin] Hcl; [|eauto].
      injection Heq as _ <-. cbn in Hcl. destruct Hcl as [Hcl | []]. discriminate.
  - split.
    + unfold closed_signals. cbn. rewrite filter_app. apply app_nil_r.
    + cbn. intros i c [Heq | Hin] Hcl; [|eauto].
      injection Heq as _ <-. cbn in Hcl. destruct Hcl as [Hcl | [Hcl | []]]; discriminate.
  - unfold closeSuccessToast. destruct (toastTimeoutId s); split; auto.
  - unfold closeErrorToast. destruct (toastTimeoutId s); split; auto.
  - unfold settle. destruct (lookup_promise id (promises s)) as [[c | o']|] eqn:Hl;
      [|split; auto|split; auto].
    assert (Hfree : ~ In (Then CloseAfterSave) c).
    { intros Hcl. apply (Hs id o eq_refl).
      apply (Hinv id c); auto. apply lookup_promise_In, Hl. }
    pose proof (run_chain_close_free c o s Hfree) as Hcs.
    destruct (run_chain_frame c o s) as [Hp _].
    destruct (run_chain c o s) as [s' o2]. cbn [fst] in *. split; [exact Hcs|].
    cbn. intros i c' Hin Hcl. apply settle_promise_pending in Hin.
    rewrite Hp in Hin. apply (Hinv i c'); tauto.
  - split; [apply run_timers_closed_signals|].
    rewrite advance_promises. exact Hinv.
Qed.

Lemma run_closed_signals (allowed : N -> Prop) (es : list Event) (s : State) :
  (forall i c, In (i, Pending c) (promises s) -> In (Then CloseAfterSave) c -> allowed i) ->
  Forall (fun e => calls_close e = false /\ forall j o, e = ESettle j o -> ~ allowed j) es ->
  closed_signals (run es s) = closed_signals s
  /\ (forall i c, In (i, Pending c) (promises (run es s)) ->
                  In (Then CloseAfterSave) c -> allowed i).
Proof.
  revert s. induction es as [|e es IH]; intros s Hinv Hes; cbn [run fold_left].
  - split; auto.
  - inversion Hes as [|x xs [Hc Hs] Hes']; subst.
    destruct (step_closed_signals allowed s e Hinv Hc Hs) as [Hcs Hinv'].
    destruct (IH (step s e) Hinv' Hes') as [Hcs' Hinv''].
    split; [|exact Hinv'']. unfold run in Hcs'. rewrite Hcs'. exact Hcs.
Qed.

(** A pending promise stays pending until an event settles it. *)
Lemma step_keeps_pending (id : N) (p : Promise) (s : State) (e : Event) :
  lookup_promise id (promises s) = Some p -> id < next_promise s ->
  settles id e = false ->
  lookup_promise id (promises (step s e)) = Some p /\ id < next_promise (step s e).
Proof.
  intros Hl Hlt Hs.
  assert (Hfresh : (next_promise s =? id) = false) by (apply N.eqb_neq; lia).
  destruct e; cbn [step]; auto.
  - unfold documentChanged. destruct (truthy (persistenceTimeout s)); auto.
    destruct (persistenceTimeout s); auto.
  - unfold saveExt. destruct (typeof _ =? _)%string; auto.
    destruct (raises _); auto.
  - unfold save, save_with. destruct (save_export _ _) as [content filename].
    destruct (raises content); [auto|]. cbn. rewrite Hfresh.
    split; [exact Hl | lia].
  - unfold saveAndClose, save_with. destruct (save_export _ _) as [content filename].
    destruct (raises content); [auto|]. cbn. rewrite Hfresh.
    split; [exact Hl | lia].
  - cbn. rewrite Hfresh. split; [exact Hl | lia].
  - unfold closeSuccessToast. destruct (toastTimeoutId s); auto.
  - unfold closeErrorToast. destruct (toastTimeoutId s); auto.
  - cbn [settles] in Hs. apply N.eqb_neq in Hs.
    unfold settle. destruct (lookup_promise id0 (promises s)) as [[c | o']|]; auto.
    destruct (run_chain_frame c o s) as [Hp [Hn _]].
    destruct (run_chain c o s) as [s' o2]. cbn [fst] in *. cbn.
    rewrite settle_promise_other by congruence. rewrite Hp, Hn. auto.
  - pose proof (advance_untimed ms s) as H. untimed_fields H.
    rewrite Hpromises, Hnext_promise. auto.
Qed.

Lemma run_keeps_pending (id : N) (p : Promise) (es : list Event) (s : State) :
  lookup_promise id (promises s) = Some p -> id < next_promise s ->
  Forall (fun e => settles id e = false) es ->
  lookup_promise id (promises (run es s)) = Some p.
Proof.
  revert s. induction es as [|e es IH]; intros s Hl Hlt Hes; cbn [run fold_left]; auto.
  inversion Hes as [|x xs Hs Hes']; subst.
  destruct (step_keeps_pending id p s e Hl Hlt Hs) as [Hl' Hlt'].
  apply IH; assumption.
Qed.

(** C4: [saveAndClose()] whose transport call rejects.  Whatever else happens
    in between and afterwards (short of a [close()] from outside or another
    [saveAndClose()]), no "closed" signal is sent; the rejection itself
    leaves the trace and the recovery store as they were (no close step ran)
    and the promise of the chain ends rejected.  Had the call succeeded,
    [close()] would have run. *)
Theorem saveAndClose_rejected_never_closes :
  forall (s : State) (es1 es2 : list Event) (m : string),
    close_free s ->
    Forall (fun e => calls_close e = false /\ settles (next_promise s) e = false) es1 ->
    Forall (fun e => calls_close e = false) es2 ->
    closed_signals
      (run (ESaveAndClose :: es1 ++ ESettle (next_promise s) (Rejected m) :: es2) s)
    = closed_signals s
    /\ (trace (settle (next_promise s) (Rejected m) (run (ESaveAndClose :: es1) s))
        = trace (run (ESaveAndClose :: es1) s)
        /\ storage (settle (next_promise s) (Rejected m) (run (ESaveAndClose :: es1) s))
           = storage (run (ESaveAndClose :: es1) s)
        /\ lookup_promise (next_promise s)
             (promises (settle (next_promise s) (Rejected m)
                          (run (ESaveAndClose :: es1) s)))
           = Some (Settled (Rejected m)))
    /\ (forall rval,
          closed_signals (settle (next_promise s) (Fulfilled rval) (saveAndClose s))
          = closed_signals s ++ [(now s, OnCloseEmit)]).
Proof.
  intros s es1 es2 m Hfree Hes1 Hes2.
  set (id := next_promise s) in *.
  set (s1 := saveAndClose s).
  assert (H1 : promises s1 = (id, Pending saveAndClose_chain) :: promises s
               /\ next_promise s1 = id + 1
               /\ closed_signals s1 = closed_signals s /\ now s1 = now s).
  { unfold s1, saveAndClose, save_with.
    pose proof (save_export_json_returns (spec (editor_value (set_generateError None s))))
      as Hr.
    destruct (save_export _ _) as [content filename]. cbn [fst] in Hr. rewrite Hr.
    repeat split. unfold closed_signals. cbn. rewrite filter_app. apply app_nil_r. }
  destruct H1 as [Hp1 [Hn1 [Hc1 Hnow1]]].
  assert (Hinv1 : forall i c, In (i, Pending c) (promises s1) ->
                              In (Then CloseAfterSave) c -> i = id).
  { rewrite Hp1. intros i c [Heq | Hin] Hcl; [congruence|].
    exfalso. exact (Hfree i c Hin Hcl). }
  assert (Hes1' : Forall (fun e => calls_close e = false
                                   /\ forall j o, e = ESettle j o -> ~ j = id) es1).
  { eapply Forall_impl; [|exact Hes1]. intros e [Hc Hs]. split; [exact Hc|].
    intros j o -> ->. cbn in Hs. rewrite N.eqb_refl in Hs. discriminate. }
  destruct (run_closed_signals (fun i => i = id) es1 s1 Hinv1 Hes1') as [Hc2 Hinv2].
  assert (Hl2 : lookup_promise id (promises (run es1 s1))
                = Some (Pending saveAndClose_chain)).
  { apply run_keeps_pending.
    - rewrite Hp1. cbn. rewrite N.eqb_refl. reflexivity.
    - lia.
    - eapply Forall_impl; [|exact Hes1]. intros e [_ Hs]. exact Hs. }
  set (s2 := run es1 s1) in *.
  assert (H3 : settle id (Rejected m) s2
               = set_promises (settle_promise id (Rejected m) (promises s2)) s2).
  { unfold settle. rewrite Hl2. reflexivity. }
  set (s3 := settle id (Rejected m) s2).
  assert (Hinv3 : forall i c, In (i, Pending c) (promises s3) ->
                              In (Then CloseAfterSave) c -> False).
  { unfold s3. rewrite H3. cbn. intros i c Hin Hcl. apply settle_promise_pending in Hin.
    destruct Hin as [Hin Hne]. apply Hne. exact (Hinv2 i c Hin Hcl). }
  assert (Hes2' : Forall (fun e => calls_close e = false
                                   /\ forall j o, e = ESettle j o -> ~ False) es2).
  { eapply Forall_impl; [|exact Hes2]. intros e Hc. split; auto. }
  destruct (run_closed_signals (fun _ => False) es2 s3 Hinv3 Hes2') as [Hc4 _].
  split; [|split].
  - change (run (ESaveAndClose :: es1 ++ ESettle id (Rejected m) :: es2) s)
      with (run (es1 ++ ESettle id (Rejected m) :: es2) s1).
    rewrite run_app. change (run (ESettle id (Rejected m) :: es2) (run es1 s1))
      with (run es2 s3).
    rewrite Hc4. unfold s3. rewrite H3. change (closed_signals s2 = closed_signals s).
    rewrite Hc2. exact Hc1.
  - change (run (ESaveAndClose :: es1) s) with s2. rewrite H3.
    cbn [set_promises trace storage promises]. repeat split.
    apply (settle_promise_same id (Rejected m) _ _ Hl2).
  - intros rval. fold s1. unfold settle. rewrite Hp1. cbn [lookup_promise].
    rewrite N.eqb_refl. unfold saveAndClose_chain.
    cbn [run_chain run_then close storage_clear]. unfold closed_signals in *.
    cbn. rewrite !filter_app. cbn. rewrite !app_nil_r.
    rewrite Hnow1. f_equal. exact Hc1.
Qed.

Lemma saveAndClose_rejected_never_closes_witness :
  close_free (init YAML petstore)
  /\ closed_signals
       (run (ESaveAndClose ::
             [EEditorValue petstore_text; EDocumentChanged; EAdvance 1000]
             ++ ESettle (next_promise (init YAML petstore)) (Rejected "disk full")
                :: [EAdvance 10000; ESaveExt])
            (init YAML petstore))
     = closed_signals (init YAML petstore).
Proof.
  assert (Hfree : close_free (init YAML petstore)) by (intros i c []).
  split; [exact Hfree|].
  apply (saveAndClose_rejected_never_closes (init YAML petstore)
           [EEditorValue petstore_text; EDocumentChanged; EAdvance 1000]
           [EAdvance 10000; ESaveExt] "disk full" Hfree).
  - repeat constructor.
  - repeat constructor.
Defined.

(** C6, as the code has it: a [save(format)] that reaches the transport (the
    serializer call returns) and whose transport call rejects with [m] hands
    the rejection on to its caller (the promise it returned ends rejected with
    [m]) and leaves the two toast flags, the toast timer handle, the recovery
    store, the timer table and the persistence handle as they were;
    [generateError], however, was reset to [null] when [save] was entered. *)
Theorem save_rejected_propagates :
  forall (s : State) (format : string) (m : string),
    raises (fst (save_export format (spec (editor_value s)))) = false ->
    lookup_promise (next_promise s)
      (promises (settle (next_promise s) (Rejected m) (save format s)))
    = Some (Settled (Rejected m))
    /\ (showSuccessToast (settle (next_promise s) (Rejected m) (save format s))
        = showSuccessToast s
        /\ showErrorToast (settle (next_promise s) (Rejected m) (save format s))
           = showErrorToast s
        /\ toastTimeoutId (settle (next_promise s) (Rejected m) (save format s))
           = toastTimeoutId s)
    /\ (storage (settle (next_promise s) (Rejected m) (save format s)) = storage s
        /\ timers (settle (next_promise s) (Rejected m) (save format s)) = timers s
        /\ persistenceTimeout (settle (next_promise s) (Rejected m) (save format s))
           = persistenceTimeout s)
    /\ generateError (settle (next_promise s) (Rejected m) (save format s)) = None.
Proof.
  intros s format m Hr. unfold save, save_with.
  cbn [editor_value set_generateError].
  destruct (save_export format (spec (editor_value s))) as [content filename].
  cbn [fst] in Hr. rewrite Hr.
  unfold settle. cbn. rewrite N.eqb_refl. cbn. rewrite N.eqb_refl. repeat split.
  rewrite N.eqb_refl. reflexivity.
Qed.

Lemma save_rejected_propagates_witness :
  raises (fst (save_export "yaml" (spec (editor_value error_shown)))) = false
  /\ generateError (settle (next_promise error_shown) (Rejected "disk full")
                      (save "yaml" error_shown)) = None.
Proof.
  assert (Hr : raises (fst (save_export "yaml" (spec (editor_value error_shown))))
               = false) by (vm_compute; reflexivity).
  split; [exact Hr|].
  exact (proj2 (proj2 (proj2 (save_rejected_propagates error_shown "yaml" "disk full"
                                Hr)))).
Defined.

(** C6 fails on the stored message: a failed [save()] after a failed
    [generate()] wipes the message of the generation failure. *)
Lemma save_rejected_resets_message :
  generateError error_shown = Some "quota exceeded"
  /\ generateError
       (run [ESave "json"; ESettle 1 (Rejected "disk full")] error_shown) = None.
Proof.
  split; vm_compute; reflexivity.
Qed.

(** C10: [closeErrorToast()] hides the error toast and cancels the timer
    whose handle [toastTimeoutId] holds; it writes nothing else, so
    [generateError] is what it was, and it stays so until an event writes it:
    a call of [save()], [close()] or [generate()], the [close()] of a
    [saveAndClose()] whose save succeeds, or the failure of a [generate()]
    still in flight. *)
Theorem closeErrorToast_keeps_message :
  forall s : State,
    showErrorToast (closeErrorToast s) = false
    /\ timers (closeErrorToast s)
       = match toastTimeoutId s with
         | Some id => filter (fun t => negb (tid t =? id)) (timers s)
         | None => timers s
         end
    /\ generateError (closeErrorToast s) = generateError s
    /\ (generating (closeErrorToast s), showSuccessToast (closeErrorToast s),
        toastTimeoutId (closeErrorToast s), persistenceTimeout (closeErrorToast s),
        storage (closeErrorToast s), promises (closeErrorToast s),
        trace (closeErrorToast s))
       = (generating s, showSuccessToast s, toastTimeoutId s, persistenceTimeout s,
          storage s, promises s, trace s)
    /\ (forall es, message_untouched es (closeErrorToast s) ->
                   generateError (run es (closeErrorToast s)) = generateError s).
Proof.
  intros s.
  assert (Hm : generateError (closeErrorToast s) = generateError s)
    by (unfold closeErrorToast; destruct (toastTimeoutId s); reflexivity).
  split; [|split; [|split; [exact Hm|split]]];
    try (unfold closeErrorToast; destruct (toastTimeoutId s) eqn:E; cbn;
         rewrite ?E; reflexivity).
  intros es Hes. rewrite run_keeps_message by exact Hes. exact Hm.
Qed.

(** The message outlives the dismissal of the toast, and the next [save()]
    resets it. *)
Example dismissed_message_until_save :
  generateError
    (run [ECloseErrorToast; EAdvance 60000; EDocumentChanged; ESaveExt] error_shown)
  = Some "quota exceeded"
  /\ generateError
       (run [ECloseErrorToast; EAdvance 60000; ESave "json"] error_shown) = None.
Proof.
  split; vm_compute; reflexivity.
Qed.

(** * Further properties *)

(** ** What a run of the clock does to the store and to the success toast *)

Lemma run_timers_no_persist_store (fuel : nat) (target : N) (s : State) :
  (forall t, In t (timers s) -> cb t <> PersistCb) ->
  storage (run_timers fuel target s) = storage s
  /\ persistenceTimeout (run_timers fuel target s) = persistenceTimeout s.
Proof.
  revert s. induction fuel as [|fuel IH]; intros s Hno; cbn [run_timers]; auto.
  destruct (next_due (timers s)) as [q|] eqn:Hq; auto.
  destruct (due q <=? target); auto.
  assert (Hcq : cb q = HideSuccessCb).
  { pose proof (Hno q (next_due_In _ _ Hq)). destruct (cb q); congruence. }
  destruct (IH (fire q s)) as [H1 H2].
  - intros t Ht. rewrite fire_timers in Ht. apply filter_In in Ht. apply Hno. tauto.
  - rewrite H1, H2. unfold fire. rewrite Hcq. split; reflexivity.
Qed.

(** A persistence timer that comes due leaves in the store the document the
    editor holds, and [persistenceTimeout] empty. *)
Lemma run_timers_persist_store (fuel : nat) (target : N) (s : State) (p : Timer) :
  wf s -> In p (timers s) -> cb p = PersistCb ->
  due p <= target -> (List.length (timers s) <= fuel)%nat ->
  storage (run_timers fuel target s) = Some (editor_value s)
  /\ persistenceTimeout (run_timers fuel target s) = None.
Proof.
  revert s. induction fuel as [|fuel IH]; intros s Hwf Hp Hcp Hdue Hlen.
  - destruct (timers s); [destruct Hp | cbn in Hlen; lia].
  - cbn [run_timers].
    destruct (next_due (timers s)) as [q|] eqn:Hq;
      [|apply next_due_None in Hq; rewrite Hq in Hp; destruct Hp].
    pose proof (next_due_In _ _ Hq) as Hqin.
    pose proof (next_due_least _ _ p Hq Hp) as Hle.
    replace (due q <=? target) with true by (symmetry; apply N.leb_le; lia).
    assert (Hdec : q = p \/ q <> p).
    { destruct (N.eq_dec (tid q) (tid p)) as [E | E].
      - left. apply (wf_tid_inj s); auto.
      - right. congruence. }
    destruct Hdec as [-> | Hne].
    + destruct (run_timers_no_persist_store fuel target (fire p s)) as [H1 H2].
      * intros t Ht. rewrite fire_timers in Ht.
        apply (drop_handle_no_persist (tid p) s t Hwf); auto.
        apply (wf_handle s Hwf p Hp Hcp).
      * rewrite H1, H2. unfold fire. rewrite Hcp. split; reflexivity.
    + pose proof (wf_other_is_toast s p q Hwf Hp Hcp Hqin Hne) as Hcq.
      destruct (fire_toast_writes q s Hcq) as [_ [Hv _]].
      rewrite <- Hv. apply IH; auto.
      * apply fire_wf; auto.
      * rewrite fire_timers. apply filter_In. split; auto.
        apply negb_true_iff, N.eqb_neq. intros Heq. apply Hne.
        symmetry. apply (wf_tid_inj s); auto.
      * rewrite fire_timers.
        pose proof (filter_drop_length (tid q) q (timers s) Hqin eq_refl). lia.
Qed.

(** While no toast timer comes due, the success toast is what it was. *)
Lemma run_timers_toast_kept (fuel : nat) (target : N) (s : State) :
  (forall t, In t (timers s) -> cb t = HideSuccessCb -> target < due t) ->
  showSuccessToast (run_timers fuel target s) = showSuccessToast s.
Proof.
  revert s. induction fuel as [|fuel IH]; intros s Hno; cbn [run_timers]; auto.
  destruct (next_due (timers s)) as [q|] eqn:Hq; auto.
  destruct (due q <=? target) eqn:Hdue; auto.
  apply N.leb_le in Hdue. pose proof (next_due_In _ _ Hq) as Hqin.
  assert (Hcq : cb q = PersistCb).
  { destruct (cb q) eqn:E; auto. specialize (Hno q Hqin E). lia. }
  rewrite IH.
  - unfold fire. rewrite Hcq. reflexivity.
  - intros t Ht. rewrite fire_timers in Ht. apply filter_In in Ht. apply Hno. tauto.
Qed.

(** ** The two handle fields name timers of their own kind *)

Lemma handles_typed_sub (s s' : State) :
  (forall t, In t (timers s') -> In t (timers s)) ->
  next_timer s' = next_timer s ->
  (persistenceTimeout s' = persistenceTimeout s \/ persistenceTimeout s' = None) ->
  toastTimeoutId s' = toastTimeoutId s ->
  handles_typed s -> handles_typed s'.
Proof.
  intros Hsub Hn Hp Ht [H1 H2 H3 H4].
  constructor; rewrite ?Hn, ?Ht.
  - intros k Hk. destruct Hp as [Hp | Hp]; rewrite Hp in Hk; [auto | discriminate].
  - intros t Hin Hk. destruct Hp as [Hp | Hp]; rewrite Hp in Hk; [auto | discriminate].
  - exact H3.
  - intros t Hin Hk. auto.
Qed.

Lemma init_handles_typed (enc : ApiFileEncoding) (doc : ApiDefinition) :
  handles_typed (init enc doc).
Proof. constructor; cbn; try discriminate; intros t []. Qed.

Lemma filter_toast_drop (id : N) (l : list Timer) :
  (forall t, In t l -> tid t = id -> cb t = PersistCb) ->
  filter is_toast (filter (fun t => negb (tid t =? id)) l) = filter is_toast l.
Proof.
  induction l as [|a l IH]; intros H; [reflexivity|]. cbn [filter].
  assert (Hl : forall t, In t l -> tid t = id -> cb t = PersistCb)
    by (intros t Ht; apply H; right; exact Ht).
  destruct (tid a =? id) eqn:E; cbn [negb filter].
  - apply N.eqb_eq in E. unfold is_toast at 2.
    rewrite (H a (or_introl eq_refl) E). apply IH, Hl.
  - destruct (is_toast a); [f_equal|]; apply IH, Hl.
Qed.

(** The state [documentChanged] schedules its timer in: the old persistence
    timer is gone and the handle with it. *)
Lemma documentChanged_cleared (s : State) :
  wf s -> handles_typed s ->
  let s1 := if truthy (persistenceTimeout s)
            then set_persistenceTimeout None (clearTimeout (persistenceTimeout s) s)
            else s in
  wf s1 /\ handles_typed s1
  /\ (forall t, In t (timers s1) -> cb t <> PersistCb)
  /\ pending_toast s1 = pending_toast s
  /\ next_timer s1 = next_timer s /\ now s1 = now s.
Proof.
  intros Hwf Hht. cbv zeta.
  destruct (truthy (persistenceTimeout s)) eqn:Htr.
  - destruct (persistenceTimeout s) as [id|] eqn:Hh; [|discriminate].
    cbn [clearTimeout]. split; [|split; [|split; [|split; [|split; reflexivity]]]].
    + pose proof (wf_drop id s Hwf) as [H1 H2 H3 H4]. constructor; auto.
      intros t Ht Hcb. exfalso. exact (drop_handle_no_persist id s t Hwf Hh Ht Hcb).
    + apply (handles_typed_sub s); cbn; auto.
      intros t Ht. apply filter_In in Ht. tauto.
    + intros t Ht. exact (drop_handle_no_persist id s t Hwf Hh Ht).
    + unfold pending_toast. cbn [set_persistenceTimeout set_timers timers].
      apply filter_toast_drop. intros t Ht Hk.
      apply (persist_handle_kind s Hht t Ht). congruence.
  - split; [exact Hwf|]. split; [exact Hht|]. split; [|repeat split].
    intros t Ht. exact (falsy_handle_no_persist s t Hwf Htr Ht).
Qed.

Lemma handles_typed_schedule_persist (delay : N) (s : State) :
  wf s -> handles_typed s ->
  handles_typed (set_persistenceTimeout (Some (next_timer s))
                   (snd (setTimeout PersistCb delay s))).
Proof.
  intros Hwf [H1 H2 H3 H4]. constructor; cbn.
  - intros k [= <-]. lia.
  - intros t Ht Hk. apply in_app_or in Ht. destruct Ht as [Ht | [<- | []]]; auto.
    injection Hk as Hk. destruct (wf_ids s Hwf t Ht). lia.
  - intros k Hk. specialize (H3 k Hk). lia.
  - intros t Ht Hk. apply in_app_or in Ht. destruct Ht as [Ht | [<- | []]]; auto.
    cbn in Hk. specialize (H3 _ Hk). lia.
Qed.

Lemma handles_typed_schedule_toast (delay : N) (s : State) :
  wf s -> handles_typed s ->
  handles_typed (set_toastTimeoutId (Some (next_timer s))
                   (snd (setTimeout HideSuccessCb delay s))).
Proof.
  intros Hwf [H1 H2 H3 H4]. constructor; cbn.
  - intros k Hk. specialize (H1 k Hk). lia.
  - intros t Ht Hk. apply in_app_or in Ht. destruct Ht as [Ht | [<- | []]]; auto.
    cbn in Hk. specialize (H1 _ Hk). lia.
  - intros k [= <-]. lia.
  - intros t Ht Hk. apply in_app_or in Ht. destruct Ht as [Ht | [<- | []]]; auto.
    injection Hk as Hk. destruct (wf_ids s Hwf t Ht). lia.
Qed.

Lemma documentChanged_handles_typed (s : State) :
  wf s -> handles_typed s -> handles_typed (documentChanged s).
Proof.
  intros Hwf Hht.
  destruct (documentChanged_cleared s Hwf Hht) as [Hwf1 [Hht1 _]].
  unfold documentChanged.
  set (s1 := if truthy (persistenceTimeout s) then _ else s) in *.
  exact (handles_typed_schedule_persist 5000 s1 Hwf1 Hht1).
Qed.

Lemma fire_handles_typed (t : Timer) (s : State) :
  handles_typed s -> handles_typed (fire t s).
Proof.
  intros Hht. apply (handles_typed_sub s); auto.
  - intros u Hu. rewrite fire_timers in Hu. apply filter_In in Hu. tauto.
  - unfold fire. destruct (cb t); reflexivity.
  - unfold fire. destruct (cb t); cbn; auto.
  - unfold fire. destruct (cb t); reflexivity.
Qed.

Lemma run_timers_handles_typed (fuel : nat) (target : N) (s : State) :
  handles_typed s -> handles_typed (run_timers fuel target s).
Proof.
  revert s. induction fuel as [|fuel IH]; intros s Hht; cbn [run_timers].
  - revert Hht. apply handles_typed_sub; auto.
  - destruct (next_due (timers s)) as [t|].
    + destruct (due t <=? target).
      * apply IH, fire_handles_typed, Hht.
      * revert Hht. apply handles_typed_sub; auto.
    + revert Hht. apply handles_typed_sub; auto.
Qed.

Lemma run_chain_handles_typed (c : list Link) (o : Outcome) (s : State) :
  wf s -> handles_typed s -> handles_typed (fst (run_chain c o s)).
Proof.
  revert o s. induction c as [|l c IH]; intros o s Hwf Hht; cbn [run_chain]; auto.
  destruct l as [f | g], o as [v | m]; auto.
  - pose proof (run_then_wf f v s Hwf) as Hwf'.
    assert (Hht' : handles_typed (fst (run_then f v s))).
    { destruct f; cbn [run_then fst].
      - revert Hht. apply handles_typed_sub; auto.
      - revert Hht. apply handles_typed_sub; auto.
      - set (s1 := set_showSuccessToast true (set_generating false s)).
        assert (Hwf1 : wf s1) by (revert Hwf; apply wf_ext; reflexivity).
        assert (Hht1 : handles_typed s1)
          by (revert Hht; apply handles_typed_sub; auto).
        exact (handles_typed_schedule_toast 5000 s1 Hwf1 Hht1). }
    destruct (run_then f v s) as [s' r]. apply IH; assumption.
  - pose proof (run_catch_wf g m s Hwf) as Hwf'.
    assert (Hht' : handles_typed (fst (run_catch g m s))).
    { destruct g; cbn [run_catch fst]. revert Hht. apply handles_typed_sub; auto. }
    destruct (run_catch g m s) as [s' r]. apply IH; assumption.
Qed.

Lemma step_handles_typed (s : State) (e : Event) :
  wf s -> handles_typed s -> handles_typed (step s e).
Proof.
  intros Hwf Hht. destruct e; cbn [step].
  - revert Hht. apply handles_typed_sub; auto.
  - apply documentChanged_handles_typed; assumption.
  - unfold saveExt. destruct (typeof _ =? _)%string; auto.
    destruct (raises _); revert Hht; apply handles_typed_sub; auto.
  - unfold save, save_with. destruct (save_export _ _) as [content filename].
    destruct (raises content); revert Hht; apply handles_typed_sub; auto.
  - revert Hht. apply handles_typed_sub; auto.
  - unfold saveAndClose, save_with. destruct (save_export _ _) as [content filename].
    destruct (raises content); revert Hht; apply handles_typed_sub; auto.
  - revert Hht. apply handles_typed_sub; auto.
  - unfold closeSuccessToast. revert Hht. apply handles_typed_sub; auto.
    + destruct (toastTimeoutId s); cbn; auto.
      intros t Ht. apply filter_In in Ht. tauto.
    + destruct (toastTimeoutId s); reflexivity.
    + destruct (toastTimeoutId s); cbn; auto.
    + destruct (toastTimeoutId s) eqn:E; cbn; auto.
  - unfold closeErrorToast. revert Hht. apply handles_typed_sub; auto.
    + destruct (toastTimeoutId s); cbn; auto.
      intros t Ht. apply filter_In in Ht. tauto.
    + destruct (toastTimeoutId s); reflexivity.
    + destruct (toastTimeoutId s); cbn; auto.
    + destruct (toastTimeoutId s) eqn:E; cbn; auto.
  - unfold settle. destruct (lookup_promise id (promises s)) as [[c | o']|]; auto.
    pose proof (run_chain_handles_typed c o s Hwf Hht) as H.
    destruct (run_chain c o s) as [s' o2]. revert H. apply handles_typed_sub; auto.
  - apply run_timers_handles_typed, Hht.
Qed.

(** Every state the component can reach has its handles typed. *)
Lemma reachable_handles_typed (enc : ApiFileEncoding) (doc : ApiDefinition)
    (es : list Event) :
  handles_typed (run es (init enc doc)).
Proof.
  assert (H : forall s, wf s -> handles_typed s ->
                        wf (run es s) /\ handles_typed (run es s)).
  { induction es as [|e es IH]; intros s Hwf Hht; cbn [run fold_left]; auto.
    apply IH; [apply step_wf | apply step_handles_typed]; assumption. }
  apply H; [apply init_wf | apply init_handles_typed].
Qed.

Lemma filter_persist_none (l : list Timer) :
  (forall t, In t l -> cb t <> PersistCb) -> filter is_persist l = [].
Proof.
  induction l as [|a l IH]; intros H; [reflexivity|]. cbn [filter].
  pose proof (H a (or_introl eq_refl)) as Ha. unfold is_persist at 1.
  destruct (cb a); [congruence|]. apply IH. intros t Ht. apply H. right; exact Ht.
Qed.

Lemma filter_persist_drop (id : N) (l : list Timer) :
  (forall t, In t l -> tid t = id -> cb t = HideSuccessCb) ->
  filter is_persist (filter (fun t => negb (tid t =? id)) l) = filter is_persist l.
Proof.
  induction l as [|a l IH]; intros H; [reflexivity|]. cbn [filter].
  assert (Hl : forall t, In t l -> tid t = id -> cb t = HideSuccessCb)
    by (intros t Ht; apply H; right; exact Ht).
  destruct (tid a =? id) eqn:E; cbn [negb filter].
  - apply N.eqb_eq in E. unfold is_persist at 2.
    rewrite (H a (or_introl eq_refl) E). apply IH, Hl.
  - destruct (is_persist a); [f_equal|]; apply IH, Hl.
Qed.

(** ** Recovery persistence *)

(** X1: [documentChanged()] restarts the debounce: whatever was pending
    before, afterwards exactly one persistence timer is pending, due 5000 ms
    from now, [persistenceTimeout] holds its handle, and the toast timers are
    the ones that were pending before. *)
Theorem documentChanged_rearms :
  forall s : State,
    wf s -> handles_typed s ->
    pending_persistence (documentChanged s)
    = [{| tid := next_timer s; due := now s + 5000; cb := PersistCb |}]
    /\ persistenceTimeout (documentChanged s) = Some (next_timer s)
    /\ pending_toast (documentChanged s) = pending_toast s.
Proof.
  intros s Hwf Hht.
  destruct (documentChanged_cleared s Hwf Hht) as [_ [_ [Hno [Htoast [Hn Hnow]]]]].
  unfold documentChanged.
  set (s1 := if truthy (persistenceTimeout s) then _ else s) in *.
  cbn [setTimeout set_persistenceTimeout set_next_timer set_timers
       persistenceTimeout timers].
  unfold pending_persistence, pending_toast in *.
  cbn [set_persistenceTimeout set_next_timer set_timers persistenceTimeout timers].
  rewrite !filter_app, (filter_persist_none _ Hno), Htoast, Hn, Hnow.
  cbn. rewrite app_nil_r. repeat split.
Qed.

Lemma documentChanged_rearms_witness :
  (wf edited /\ handles_typed edited)
  /\ pending_persistence (documentChanged edited)
     = [{| tid := next_timer edited; due := now edited + 5000; cb := PersistCb |}].
Proof.
  assert (Hwf : wf edited) by (unfold edited; apply reachable_wf).
  assert (Hht : handles_typed edited) by (unfold edited; apply reachable_handles_typed).
  split; [exact (conj Hwf Hht)|].
  exact (proj1 (documentChanged_rearms edited Hwf Hht)).
Defined.

(** X2: when the persistence timer fires, the snapshot written is the
    document the editor holds at that moment (also one it took on after the
    last [documentChanged()]), the handle is forgotten and no persistence
    timer is left. *)
Theorem recovery_write_stores_current_value :
  forall (s : State) (p : Timer) (v : ApiDefinition) (ms : N),
    wf s -> In p (timers s) -> cb p = PersistCb -> due p <= now s + ms ->
    storage (run [EEditorValue v; EAdvance ms] s) = Some v
    /\ persistenceTimeout (run [EEditorValue v; EAdvance ms] s) = None
    /\ pending_persistence (run [EEditorValue v; EAdvance ms] s) = [].
Proof.
  intros s p v ms Hwf Hp Hcp Hdue. cbn [run fold_left step].
  set (s1 := set_editor_value v s).
  assert (Hwf1 : wf s1) by (revert Hwf; apply wf_ext; reflexivity).
  destruct (run_timers_persist_store (List.length (timers s1)) (now s1 + ms) s1 p)
    as [Hst Hh]; auto.
  fold (advance ms s1) in Hst, Hh. split; [exact Hst|]. split; [exact Hh|].
  apply filter_persist_none. intros t Ht.
  apply (falsy_handle_no_persist (advance ms s1)); auto.
  - apply run_timers_wf, Hwf1.
  - rewrite Hh. reflexivity.
Qed.

Lemma recovery_write_stores_current_value_witness :
  (wf edited /\ In edit_timer (timers edited) /\ cb edit_timer = PersistCb
   /\ due edit_timer <= now edited + 5000)
  /\ storage (run [EEditorValue petstore; EAdvance 5000] edited) = Some petstore.
Proof.
  assert (Hwf : wf edited) by (unfold edited; apply reachable_wf).
  assert (Hin : In edit_timer (timers edited)) by (vm_compute; left; reflexivity).
  assert (Hcb : cb edit_timer = PersistCb) by reflexivity.
  assert (Hdue : due edit_timer <= now edited + 5000)
    by (vm_compute; discriminate).
  split; [exact (conj Hwf (conj Hin (conj Hcb Hdue)))|].
  exact (proj1 (recovery_write_stores_current_value edited edit_timer petstore 5000
                  Hwf Hin Hcb Hdue)).
Defined.

(** X3: in every state the component can reach, at most one persistence
    timer is pending, it is the one [persistenceTimeout] names, no two timers
    share a handle, and while [persistenceTimeout] is falsy no persistence
    timer is pending at all. *)
Theorem reachable_persistence_timer_unique :
  forall (enc : ApiFileEncoding) (doc : ApiDefinition) (es : list Event),
    (List.length (pending_persistence (run es (init enc doc))) <= 1)%nat
    /\ (forall t, In t (pending_persistence (run es (init enc doc))) ->
                  persistenceTimeout (run es (init enc doc)) = Some (tid t))
    /\ NoDup (map tid (timers (run es (init enc doc))))
    /\ (truthy (persistenceTimeout (run es (init enc doc))) = false ->
        pending_persistence (run es (init enc doc)) = []).
Proof.
  intros enc doc es. pose proof (reachable_wf enc doc es) as Hwf.
  split; [apply wf_one_persistence, Hwf|]. split; [|split].
  - intros t Ht. apply filter_In in Ht. destruct Ht as [Ht Hp].
    apply (wf_handle _ Hwf t Ht). unfold is_persist in Hp.
    destruct (cb t); [reflexivity | discriminate].
  - apply (wf_nodup _ Hwf).
  - intros Hf. apply filter_persist_none. intros t Ht.
    exact (falsy_handle_no_persist _ t Hwf Hf Ht).
Qed.

(** X4: the close buttons of the toasts never cancel the recovery persistence
    timer, although they call [clearTimeout] with a handle from the same
    counter: in every state the component can reach, the pending persistence
    timers are the same after [closeSuccessToast()] and after
    [closeErrorToast()]. *)
Theorem toast_close_keeps_persistence_timer :
  forall (enc : ApiFileEncoding) (doc : ApiDefinition) (es : list Event),
    pending_persistence (closeSuccessToast (run es (init enc doc)))
    = pending_persistence (run es (init enc doc))
    /\ pending_persistence (closeErrorToast (run es (init enc doc)))
       = pending_persistence (run es (init enc doc)).
Proof.
  intros enc doc es. pose proof (reachable_handles_typed enc doc es) as Hht.
  set (s := run es (init enc doc)) in *.
  assert (H : forall b : bool,
             filter is_persist
               (timers (clearTimeout (toastTimeoutId s)
                          (if b then set_showSuccessToast false s
                           else set_showErrorToast false s)))
             = filter is_persist (timers s)).
  { intros b. destruct (toastTimeoutId s) as [id|] eqn:E.
    - destruct b; cbn; apply filter_persist_drop; intros t Ht Hk;
        apply (toast_handle_kind s Hht t Ht); congruence.
    - destruct b; reflexivity. }
  split; [exact (H true) | exact (H false)].
Qed.

(** ** The success toast *)

Lemma filter_drop_absent (id : N) (l : list Timer) :
  (forall t, In t l -> tid t <> id) ->
  filter (fun t => negb (tid t =? id)) l = l.
Proof.
  induction l as [|a l IH]; intros H; [reflexivity|]. cbn [filter].
  replace (tid a =? id) with false
    by (symmetry; apply N.eqb_neq, H; left; reflexivity).
  cbn [negb]. f_equal. apply IH. intros t Ht. apply H. right; exact Ht.
Qed.

(** X5: a [generate(gconfig)] whose transport call succeeds leaves
    [generating] false, the success toast shown, the error toast hidden and
    no message, with one new timer, due 5000 ms from now, whose handle is in
    [toastTimeoutId]; 5000 ms later the success toast is hidden, and when no
    other toast timer was pending it is shown for all of that time. *)
Theorem generate_success_toast_lifecycle :
  forall (s : State) (gconfig : GeneratorConfig) (v : JsValue),
    wf s ->
    (generating (settle (next_promise s) (Fulfilled v) (generate gconfig s)) = false
     /\ showSuccessToast (settle (next_promise s) (Fulfilled v) (generate gconfig s))
        = true
     /\ showErrorToast (settle (next_promise s) (Fulfilled v) (generate gconfig s))
        = false
     /\ generateError (settle (next_promise s) (Fulfilled v) (generate gconfig s))
        = None)
    /\ (toastTimeoutId (settle (next_promise s) (Fulfilled v) (generate gconfig s))
        = Some (next_timer s)
        /\ timers (settle (next_promise s) (Fulfilled v) (generate gconfig s))
           = timers s
             ++ [{| tid := next_timer s; due := now s + 5000; cb := HideSuccessCb |}])
    /\ (forall ms, 5000 <= ms ->
          showSuccessToast
            (advance ms (settle (next_promise s) (Fulfilled v) (generate gconfig s)))
          = false)
    /\ (pending_toast s = [] ->
        forall ms, ms < 5000 ->
          showSuccessToast
            (advance ms (settle (next_promise s) (Fulfilled v) (generate gconfig s)))
          = true).
Proof.
  intros s gconfig v Hwf.
  set (r := settle (next_promise s) (Fulfilled v) (generate gconfig s)).
  assert (Hr : (generating r = false /\ showSuccessToast r = true
                /\ showErrorToast r = false /\ generateError r = None)
               /\ (toastTimeoutId r = Some (next_timer s)
                   /\ timers r = timers s
                        ++ [{| tid := next_timer s; due := now s + 5000;
                               cb := HideSuccessCb |}])
               /\ now r = now s).
  { unfold r, settle, generate. cbn. rewrite N.eqb_refl. cbn. repeat split. }
  destruct Hr as [Hflags [[Hid Htimers] Hnow]].
  assert (Hwfr : wf r).
  { unfold r. apply settle_wf. revert Hwf. apply wf_ext; reflexivity. }
  split; [exact Hflags|]. split; [exact (conj Hid Htimers)|]. split.
  - intros ms Hms.
    apply (run_timers_toast_due _ _ r
             {| tid := next_timer s; due := now s + 5000; cb := HideSuccessCb |});
      auto.
    + rewrite Htimers. apply in_or_app. right. left. reflexivity.
    + cbn. rewrite Hnow. lia.
  - intros Hnone ms Hms. unfold advance. rewrite run_timers_toast_kept.
    + apply Hflags.
    + intros t Ht Hct. rewrite Htimers in Ht. apply in_app_or in Ht.
      destruct Ht as [Ht | [<- | []]].
      * exfalso. assert (Hin : In t (pending_toast s)).
        { apply filter_In. split; auto. unfold is_toast. rewrite Hct. reflexivity. }
        rewrite Hnone in Hin. destruct Hin.
      * cbn. rewrite Hnow. lia.
Qed.

Lemma generate_success_toast_lifecycle_witness :
  wf (init JSON petstore)
  /\ showSuccessToast
       (advance 5000 (settle (next_promise (init JSON petstore)) (Fulfilled JsUndefined)
                        (generate camel_config (init JSON petstore)))) = false.
Proof.
  assert (Hwf : wf (init JSON petstore)) by apply init_wf.
  split; [exact Hwf|].
  assert (H5 : 5000 <= 5000) by lia.
  exact (proj1 (proj2 (proj2 (generate_success_toast_lifecycle
                                (init JSON petstore) camel_config JsUndefined Hwf)))
           5000 H5).
Defined.

(** X6: the timer of an earlier success toast hides a later one: when a
    generation succeeds while a toast timer [t] is still pending, the new
    success toast is hidden as soon as [t] is due, also less than 5000 ms
    after it was shown. *)
Theorem stale_timer_hides_newer_success_toast :
  forall (s : State) (t : Timer) (id : N) (v : JsValue) (ms : N),
    wf s -> In t (timers s) -> cb t = HideSuccessCb ->
    lookup_promise id (promises s) = Some (Pending generate_chain) ->
    due t <= now s + ms ->
    showSuccessToast (settle id (Fulfilled v) s) = true
    /\ showSuccessToast (advance ms (settle id (Fulfilled v) s)) = false.
Proof.
  intros s t id v ms Hwf Ht Hct Hl Hdue.
  set (r := settle id (Fulfilled v) s).
  assert (Hr : showSuccessToast r = true
               /\ timers r = timers s
                    ++ [{| tid := next_timer s; due := now s + 5000;
                           cb := HideSuccessCb |}]
               /\ now r = now s).
  { unfold r, settle. rewrite Hl. cbn. repeat split. }
  destruct Hr as [Hshown [Htimers Hnow]].
  split; [exact Hshown|].
  apply (run_timers_toast_due _ _ r t); auto.
  - unfold r. apply settle_wf, Hwf.
  - rewrite Htimers. apply in_or_app. left. exact Ht.
  - rewrite Hnow. exact Hdue.
Qed.

Lemma stale_timer_hides_newer_success_toast_witness :
  (wf second_generation /\ In success_timer (timers second_generation)
   /\ cb success_timer = HideSuccessCb
   /\ lookup_promise 1 (promises second_generation) = Some (Pending generate_chain)
   /\ due success_timer <= now second_generation + 2000)
  /\ showSuccessToast (advance 2000 (settle 1 (Fulfilled JsUndefined) second_generation))
     = false.
Proof.
  assert (Hwf : wf second_generation)
    by (unfold second_generation, success_shown; apply run_wf, reachable_wf).
  assert (Hin : In success_timer (timers second_generation))
    by (vm_compute; left; reflexivity).
  assert (Hcb : cb success_timer = HideSuccessCb) by reflexivity.
  assert (Hl : lookup_promise 1 (promises second_generation)
               = Some (Pending generate_chain)) by (vm_compute; reflexivity).
  assert (Hdue : due success_timer <= now second_generation + 2000)
    by (vm_compute; discriminate).
  split; [exact (conj Hwf (conj Hin (conj Hcb (conj Hl Hdue))))|].
  exact (proj2 (stale_timer_hides_newer_success_toast second_generation success_timer
                  1 JsUndefined 2000 Hwf Hin Hcb Hl Hdue)).
Defined.

(** X7: [closeSuccessToast()] right after a successful generation hides the
    toast and cancels its timer: the timer table is what it was before the
    success, and the toast stays hidden however long one waits. *)
Theorem closeSuccessToast_cancels_its_timer :
  forall (s : State) (id : N) (v : JsValue),
    wf s -> lookup_promise id (promises s) = Some (Pending generate_chain) ->
    showSuccessToast (closeSuccessToast (settle id (Fulfilled v) s)) = false
    /\ timers (closeSuccessToast (settle id (Fulfilled v) s)) = timers s
    /\ (forall ms,
          showSuccessToast (advance ms (closeSuccessToast (settle id (Fulfilled v) s)))
          = false).
Proof.
  intros s id v Hwf Hl.
  assert (Hr : showSuccessToast (closeSuccessToast (settle id (Fulfilled v) s)) = false
               /\ timers (closeSuccessToast (settle id (Fulfilled v) s)) = timers s).
  { unfold settle. rewrite Hl. cbn. split; [reflexivity|].
    rewrite filter_app. cbn. rewrite N.eqb_refl. cbn. rewrite app_nil_r.
    apply filter_drop_absent. intros t Ht. destruct (wf_ids s Hwf t Ht). lia. }
  destruct Hr as [Hhidden Htimers].
  split; [exact Hhidden|]. split; [exact Htimers|].
  intros ms. apply run_timers_success_hidden. exact Hhidden.
Qed.

Lemma closeSuccessToast_cancels_its_timer_witness :
  (wf second_generation
   /\ lookup_promise 1 (promises second_generation) = Some (Pending generate_chain))
  /\ timers (closeSuccessToast (settle 1 (Fulfilled JsUndefined) second_generation))
     = timers second_generation.
Proof.
  assert (Hwf : wf second_generation)
    by (unfold second_generation, success_shown; apply run_wf, reachable_wf).
  assert (Hl : lookup_promise 1 (promises second_generation)
               = Some (Pending generate_chain)) by (vm_compute; reflexivity).
  split; [exact (conj Hwf Hl)|].
  exact (proj1 (proj2 (closeSuccessToast_cancels_its_timer second_generation 1
                         JsUndefined Hwf Hl))).
Defined.

(** ** Toasts and generations that overlap *)

(** X8: the two toasts share [toastTimeoutId], so closing the error toast
    cancels the timer of the success toast: when the only toast timers pending
    are under the handle [toastTimeoutId] holds and the success toast is
    shown, after [closeErrorToast()] the success toast stays shown however
    long one waits. *)
Theorem closeErrorToast_cancels_success_timer :
  forall (s : State) (id : N),
    toastTimeoutId s = Some id ->
    showSuccessToast s = true ->
    (forall u, In u (timers s) -> cb u = HideSuccessCb -> tid u = id) ->
    pending_toast (closeErrorToast s) = []
    /\ forall ms,
         showSuccessToast (advance ms (closeErrorToast s)) = true
         /\ showErrorToast (advance ms (closeErrorToast s)) = false.
Proof.
  intros s id Hid Hshown Honly.
  assert (Hnone : forall u, In u (timers (closeErrorToast s)) -> cb u <> HideSuccessCb).
  { unfold closeErrorToast. rewrite Hid. cbn. intros u Hu Hcu.
    apply filter_In in Hu. destruct Hu as [Hu Hne].
    rewrite (Honly u Hu Hcu), N.eqb_refl in Hne. discriminate. }
  split.
  - unfold pending_toast.
    destruct (filter is_toast (timers (closeErrorToast s))) as [|u r] eqn:Hf;
      [reflexivity|].
    exfalso. assert (Hu : In u (filter is_toast (timers (closeErrorToast s))))
      by (rewrite Hf; left; reflexivity).
    apply filter_In in Hu. destruct Hu as [Hu Ht]. apply (Hnone u Hu).
    unfold is_toast in Ht. destruct (cb u); [discriminate | reflexivity].
  - intros ms. split.
    + unfold advance. rewrite run_timers_toast_kept.
      * unfold closeErrorToast. rewrite Hid. exact Hshown.
      * intros t Ht Hct. exfalso. exact (Hnone t Ht Hct).
    + rewrite advance_showErrorToast. unfold closeErrorToast. rewrite Hid. reflexivity.
Qed.

Lemma closeErrorToast_cancels_success_timer_witness :
  (toastTimeoutId both_settled = Some 1
   /\ showSuccessToast both_settled = true
   /\ (forall u, In u (timers both_settled) -> cb u = HideSuccessCb -> tid u = 1))
  /\ showSuccessToast (advance 3600000 (closeErrorToast both_settled)) = true.
Proof.
  assert (Hid : toastTimeoutId both_settled = Some 1) by (vm_compute; reflexivity).
  assert (Hshown : showSuccessToast both_settled = true) by (vm_compute; reflexivity).
  assert (Honly : forall u, In u (timers both_settled) -> cb u = HideSuccessCb ->
                            tid u = 1)
    by (vm_compute; intros u [<- | []] _; reflexivity).
  split; [exact (conj Hid (conj Hshown Honly))|].
  exact (proj1 (proj2 (closeErrorToast_cancels_success_timer both_settled 1
                         Hid Hshown Honly) 3600000)).
Defined.

(** X9: the toasts are not exclusive: with two generations in flight, one
    that succeeds and then one that fails leave both toasts shown, with the
    message of the failure. *)
Theorem overlapping_generations_show_both_toasts :
  forall (s : State) (id1 id2 : N) (v : JsValue) (m : string),
    lookup_promise id1 (promises s) = Some (Pending generate_chain) ->
    lookup_promise id2 (promises s) = Some (Pending generate_chain) ->
    id1 <> id2 ->
    showSuccessToast (settle id2 (Rejected m) (settle id1 (Fulfilled v) s)) = true
    /\ showErrorToast (settle id2 (Rejected m) (settle id1 (Fulfilled v) s)) = true
    /\ generateError (settle id2 (Rejected m) (settle id1 (Fulfilled v) s)) = Some m.
Proof.
  intros s id1 id2 v m H1 H2 Hne.
  set (r := settle id1 (Fulfilled v) s).
  assert (Hr : showSuccessToast r = true
               /\ lookup_promise id2 (promises r) = Some (Pending generate_chain)).
  { unfold r, settle. rewrite H1. cbn. split; [reflexivity|].
    fold (settle_promise id1 (Fulfilled JsUndefined) (promises s)).
    rewrite settle_promise_other by congruence. exact H2. }
  destruct Hr as [Hshown Hl]. unfold settle. rewrite Hl. cbn. auto.
Qed.

Lemma overlapping_generations_show_both_toasts_witness :
  (lookup_promise 0 (promises two_generations) = Some (Pending generate_chain)
   /\ lookup_promise 1 (promises two_generations) = Some (Pending generate_chain)
   /\ 0 <> 1)
  /\ showSuccessToast (settle 1 (Rejected "quota exceeded")
                         (settle 0 (Fulfilled JsUndefined) two_generations)) = true.
Proof.
  assert (H0 : lookup_promise 0 (promises two_generations)
               = Some (Pending generate_chain)) by (vm_compute; reflexivity).
  assert (H1 : lookup_promise 1 (promises two_generations)
               = Some (Pending generate_chain)) by (vm_compute; reflexivity).
  assert (Hne : 0 <> 1) by discriminate.
  split; [exact (conj H0 (conj H1 Hne))|].
  exact (proj1 (overlapping_generations_show_both_toasts two_generations 0 1
                  JsUndefined "quota exceeded" H0 H1 Hne)).
Defined.

(** X10: [generating] is one flag for all generations: with two in flight,
    the completion of the first, whichever way it goes, sets [generating] to
    false although the second is still pending. *)
Theorem first_completion_clears_generating :
  forall (s : State) (id1 id2 : N) (o : Outcome),
    lookup_promise id1 (promises s) = Some (Pending generate_chain) ->
    lookup_promise id2 (promises s) = Some (Pending generate_chain) ->
    id1 <> id2 ->
    generating (settle id1 o s) = false
    /\ lookup_promise id2 (promises (settle id1 o s)) = Some (Pending generate_chain).
Proof.
  intros s id1 id2 o H1 H2 Hne. unfold settle. rewrite H1.
  destruct o as [v | m]; cbn; (split; [reflexivity|]).
  - fold (settle_promise id1 (Fulfilled JsUndefined) (promises s)).
    rewrite settle_promise_other by congruence. exact H2.
  - fold (settle_promise id1 (Fulfilled JsUndefined) (promises s)).
    rewrite settle_promise_other by congruence. exact H2.
Qed.

Lemma first_completion_clears_generating_witness :
  (lookup_promise 0 (promises two_generations) = Some (Pending generate_chain)
   /\ lookup_promise 1 (promises two_generations) = Some (Pending generate_chain)
   /\ 0 <> 1)
  /\ generating (settle 0 (Rejected "quota exceeded") two_generations) = false.
Proof.
  assert (H0 : lookup_promise 0 (promises two_generations)
               = Some (Pending generate_chain)) by (vm_compute; reflexivity).
  assert (H1 : lookup_promise 1 (promises two_generations)
               = Some (Pending generate_chain)) by (vm_compute; reflexivity).
  assert (Hne : 0 <> 1) by discriminate.
  split; [exact (conj H0 (conj H1 Hne))|].
  exact (proj1 (first_completion_clears_generating two_generations 0 1
                  (Rejected "quota exceeded") H0 H1 Hne)).
Defined.

(** X11: [close()] does not call off a generation in flight: the promise
    stays pending, and when it settles after the "closed" signal its
    callbacks run all the same, showing the success toast and scheduling its
    timer, or showing the error toast with the message. *)
Theorem generation_completes_after_close :
  forall (s : State) (id : N),
    lookup_promise id (promises s) = Some (Pending generate_chain) ->
    lookup_promise id (promises (close s)) = Some (Pending generate_chain)
    /\ closed_signals (close s) = closed_signals s ++ [(now s, OnCloseEmit)]
    /\ (forall v,
          showSuccessToast (settle id (Fulfilled v) (close s)) = true
          /\ timers (settle id (Fulfilled v) (close s))
             = timers s
               ++ [{| tid := next_timer s; due := now s + 5000; cb := HideSuccessCb |}])
    /\ (forall m,
          showErrorToast (settle id (Rejected m) (close s)) = true
          /\ generateError (settle id (Rejected m) (close s)) = Some m).
Proof.
  intros s id Hl.
  assert (Hl' : lookup_promise id (promises (close s)) = Some (Pending generate_chain))
    by exact Hl.
  split; [exact Hl'|]. split; [|split].
  - unfold closed_signals, close. cbn. rewrite !filter_app. cbn.
    rewrite app_nil_r. reflexivity.
  - intros v. unfold settle. rewrite Hl'. cbn. split; reflexivity.
  - intros m. unfold settle. rewrite Hl'. cbn. split; reflexivity.
Qed.

Lemma generation_completes_after_close_witness :
  lookup_promise 1 (promises two_generations) = Some (Pending generate_chain)
  /\ closed_signals (close two_generations)
     = closed_signals two_generations ++ [(now two_generations, OnCloseEmit)].
Proof.
  assert (H1 : lookup_promise 1 (promises two_generations)
               = Some (Pending generate_chain)) by (vm_compute; reflexivity).
  split; [exact H1|].
  exact (proj1 (proj2 (generation_completes_after_close two_generations 1 H1))).
Defined.

(** ** Save, close and the recovery write *)

(** X12: a [save(format)] that reaches the transport and whose transport call
    succeeds: the transport was called once, the promise [save] returned is
    fulfilled with the transport's [rval] unchanged, the recovery store was
    cleared once, [generateError] is [null] (it was reset on entry), and
    [generating], the two toast flags and [toastTimeoutId] are what they were
    before the call. *)
Theorem save_fulfilled_returns_rval :
  forall (s : State) (format : string) (rval : JsValue),
    raises (fst (save_export format (spec (editor_value s)))) = false ->
    lookup_promise (next_promise s)
      (promises (settle (next_promise s) (Fulfilled rval) (save format s)))
    = Some (Settled (Fulfilled rval))
    /\ trace (settle (next_promise s) (Fulfilled rval) (save format s))
       = trace s
         ++ [(now s, DownloadToFS (fst (save_export format (spec (editor_value s))))
                       "application/json"
                       (snd (save_export format (spec (editor_value s)))));
             (now s, StorageClear)]
    /\ generateError (settle (next_promise s) (Fulfilled rval) (save format s)) = None
    /\ (generating (settle (next_promise s) (Fulfilled rval) (save format s)),
        showSuccessToast (settle (next_promise s) (Fulfilled rval) (save format s)),
        showErrorToast (settle (next_promise s) (Fulfilled rval) (save format s)),
        toastTimeoutId (settle (next_promise s) (Fulfilled rval) (save format s)))
       = (generating s, showSuccessToast s, showErrorToast s, toastTimeoutId s).
Proof.
  intros s format rval Hr. unfold save, save_with.
  cbn [editor_value set_generateError].
  destruct (save_export format (spec (editor_value s))) as [content filename].
  cbn [fst snd] in *. rewrite Hr.
  unfold settle. cbn. rewrite N.eqb_refl. cbn. rewrite N.eqb_refl.
  rewrite <- !app_assoc. cbn. repeat split.
  rewrite N.eqb_refl. reflexivity.
Qed.

Lemma save_fulfilled_returns_rval_witness :
  raises (fst (save_export "yaml" (spec (editor_value error_shown)))) = false
  /\ lookup_promise (next_promise error_shown)
       (promises (settle (next_promise error_shown) (Fulfilled (JsBoolean true))
                    (save "yaml" error_shown)))
     = Some (Settled (Fulfilled (JsBoolean true))).
Proof.
  assert (Hr : raises (fst (save_export "yaml" (spec (editor_value error_shown))))
               = false) by (vm_compute; reflexivity).
  split; [exact Hr|].
  exact (proj1 (save_fulfilled_returns_rval error_shown "yaml" (JsBoolean true) Hr)).
Defined.

(** X13: what a [saveAndClose()] that succeeds does, in order: the export
    (always as JSON, under the JSON file name, for a structured document),
    then on success the recovery store is cleared by the save and again by
    the close, and the "closed" signal comes last; the message is reset, the
    store is empty, and the promise of the chain is fulfilled with
    [undefined], not with the transport's [rval]. *)
Theorem saveAndClose_success_order :
  forall (s : State) (rval : JsValue),
    trace (settle (next_promise s) (Fulfilled rval) (saveAndClose s))
    = trace s
      ++ [(now s, DownloadToFS (fst (save_export "json" (spec (editor_value s))))
                    "application/json"
                    (snd (save_export "json" (spec (editor_value s)))));
          (now s, StorageClear); (now s, StorageClear); (now s, OnCloseEmit)]
    /\ lookup_promise (next_promise s)
         (promises (settle (next_promise s) (Fulfilled rval) (saveAndClose s)))
       = Some (Settled (Fulfilled JsUndefined))
    /\ storage (settle (next_promise s) (Fulfilled rval) (saveAndClose s)) = None
    /\ generateError (settle (next_promise s) (Fulfilled rval) (saveAndClose s)) = None.
Proof.
  intros s rval. unfold saveAndClose, save_with.
  pose proof (save_export_json_returns (spec (editor_value s))) as Hr.
  destruct (save_export "json" (spec (editor_value (set_generateError None s))))
    as [content filename] eqn:E.
  cbn [editor_value set_generateError] in E. rewrite E in Hr |- *.
  cbn [fst] in Hr. rewrite Hr.
  unfold settle. cbn. rewrite N.eqb_refl. cbn. rewrite N.eqb_refl.
  rewrite <- !app_assoc. cbn. repeat split.
  rewrite N.eqb_refl. reflexivity.
Qed.

(** X14: neither [close()] nor a [save()] that succeeds calls off a recovery
    write that is pending: once the deadline of the persistence timer has
    passed, the store holds the editor's document again. *)
Theorem pending_recovery_write_survives_close_and_save :
  forall (s : State) (p : Timer) (ms : N),
    wf s -> In p (timers s) -> cb p = PersistCb -> due p <= now s + ms ->
    storage (close s) = None
    /\ storage (advance ms (close s)) = Some (editor_value s)
    /\ (forall format rval,
          raises (fst (save_export format (spec (editor_value s)))) = false ->
          storage (settle (next_promise s) (Fulfilled rval) (save format s)) = None
          /\ storage (advance ms (settle (next_promise s) (Fulfilled rval)
                                    (save format s)))
             = Some (editor_value s)).
Proof.
  intros s p ms Hwf Hp Hcp Hdue. split; [reflexivity|]. split.
  - assert (Hwf' : wf (close s)) by (revert Hwf; apply wf_ext; reflexivity).
    exact (proj1 (run_timers_persist_store _ (now (close s) + ms) (close s) p
                    Hwf' Hp Hcp Hdue (Nat.le_refl _))).
  - intros format rval Hr.
    set (r := settle (next_promise s) (Fulfilled rval) (save format s)).
    assert (Hr' : storage r = None /\ timers r = timers s
                  /\ editor_value r = editor_value s /\ now r = now s).
    { unfold r, save, save_with. cbn [editor_value set_generateError].
      destruct (save_export format (spec (editor_value s))) as [content filename].
      cbn [fst] in Hr. rewrite Hr.
      unfold settle. cbn. rewrite N.eqb_refl. cbn. repeat split. }
    destruct Hr' as [Hst [Ht [Hv Hn]]]. split; [exact Hst|].
    assert (Hwfr : wf r).
    { unfold r. apply settle_wf. apply (step_wf s (ESave format)), Hwf. }
    rewrite <- Hv. unfold advance.
    apply (run_timers_persist_store _ _ r p); auto.
    + rewrite Ht. exact Hp.
    + rewrite Hn. exact Hdue.
Qed.

Lemma pending_recovery_write_survives_close_and_save_witness :
  (wf edited /\ In edit_timer (timers edited) /\ cb edit_timer = PersistCb
   /\ due edit_timer <= now edited + 5000)
  /\ storage (advance 5000 (close edited)) = Some (editor_value edited).
Proof.
  assert (Hwf : wf edited) by (unfold edited; apply reachable_wf).
  assert (Hin : In edit_timer (timers edited)) by (vm_compute; left; reflexivity).
  assert (Hcb : cb edit_timer = PersistCb) by reflexivity.
  assert (Hdue : due edit_timer <= now edited + 5000)
    by (vm_compute; discriminate).
  split; [exact (conj Hwf (conj Hin (conj Hcb Hdue)))|].
  exact (proj1 (proj2 (pending_recovery_write_survives_close_and_save edited edit_timer
                         5000 Hwf Hin Hcb Hdue))).
Defined.

(** ** Deadlines *)

Lemma clearTimeout_sub (h : option N) (s : State) (t : Timer) :
  In t (timers (clearTimeout h s)) -> In t (timers s).
Proof.
  destruct h as [id|]; cbn; auto. intros Ht. apply filter_In in Ht. tauto.
Qed.

Lemma timely_sub (s s' : State) :
  (forall t, In t (timers s') -> In t (timers s)) -> now s' = now s ->
  timely s -> timely s'.
Proof.
  intros Hsub Hn H t Ht. rewrite Hn. apply H, Hsub, Ht.
Qed.

Lemma timely_schedule (c : Callback) (s : State) :
  timely s -> timely (snd (setTimeout c 5000 s)).
Proof.
  intros H t Ht. cbn in *. apply in_app_or in Ht.
  destruct Ht as [Ht | [<- | []]]; [apply H, Ht | cbn; lia].
Qed.

Lemma documentChanged_timely (s : State) : timely s -> timely (documentChanged s).
Proof.
  intros H. unfold documentChanged.
  set (s1 := if truthy (persistenceTimeout s) then _ else s).
  assert (H1 : timely s1).
  { unfold s1. destruct (truthy (persistenceTimeout s)); [|exact H].
    revert H. apply timely_sub; [|destruct (persistenceTimeout s); reflexivity].
    intros t Ht. cbn [set_persistenceTimeout timers] in Ht.
    apply clearTimeout_sub in Ht. exact Ht. }
  pose proof (timely_schedule PersistCb s1 H1) as H2.
  revert H2. apply timely_sub; auto.
Qed.

Lemma run_chain_timely (c : list Link) (o : Outcome) (s : State) :
  timely s -> timely (fst (run_chain c o s)).
Proof.
  revert o s. induction c as [|l c IH]; intros o s H; cbn [run_chain]; auto.
  destruct l as [f | g], o as [v | m]; auto.
  - assert (H' : timely (fst (run_then f v s))).
    { destruct f; cbn [run_then fst].
      - revert H. apply timely_sub; auto.
      - revert H. apply timely_sub; auto.
      - set (s1 := set_showSuccessToast true (set_generating false s)).
        assert (H1 : timely s1) by (revert H; apply timely_sub; auto).
        pose proof (timely_schedule HideSuccessCb s1 H1) as H2.
        revert H2. apply timely_sub; auto. }
    destruct (run_then f v s) as [s' r]. apply IH, H'.
  - assert (H' : timely (fst (run_catch g m s))).
    { destruct g; cbn [run_catch fst]. revert H. apply timely_sub; auto. }
    destruct (run_catch g m s) as [s' r]. apply IH, H'.
Qed.

Lemma advance_timely (ms : N) (s : State) : timely s -> timely (advance ms s).
Proof.
  intros H t Ht. unfold advance in *. rewrite run_timers_now.
  pose proof (run_timers_complete _ _ s t (Nat.le_refl _) Ht) as Hgt.
  apply run_timers_sub in Ht. destruct (H t Ht). lia.
Qed.

Lemma step_timely (s : State) (e : Event) : timely s -> timely (step s e).
Proof.
  intros H. destruct e; cbn [step]; try exact H.
  - apply documentChanged_timely, H.
  - unfold saveExt. destruct (typeof _ =? _)%string; [destruct (raises _)|]; exact H.
  - unfold save, save_with. destruct (save_export _ _) as [content filename].
    destruct (raises content); exact H.
  - unfold saveAndClose, save_with. destruct (save_export _ _) as [content filename].
    destruct (raises content); exact H.
  - unfold closeSuccessToast. revert H.
    apply timely_sub; [|destruct (toastTimeoutId s); reflexivity].
    intros t Ht. apply clearTimeout_sub in Ht. exact Ht.
  - unfold closeErrorToast. revert H.
    apply timely_sub; [|destruct (toastTimeoutId s); reflexivity].
    intros t Ht. apply clearTimeout_sub in Ht. exact Ht.
  - unfold settle. destruct (lookup_promise id (promises s)) as [[c | o']|]; auto.
    pose proof (run_chain_timely c o s H) as H'.
    destruct (run_chain c o s) as [s' o2]. exact H'.
  - apply advance_timely, H.
Qed.

Lemma reachable_timely (enc : ApiFileEncoding)
    (doc : ApiDefinition) (es : list Event) :
  timely (run es (init enc doc)).
Proof.
  assert (H : forall s, timely s -> timely (run es s)).
  { induction es as [|e es IH]; intros s Hs; cbn [run fold_left]; auto.
    apply IH, step_timely, Hs. }
  apply H. intros t [].
Qed.

(** X15: in every state the component can reach, every pending timer is due
    later than now and at most 5000 ms from now: no timer is overdue, and
    neither a recovery write nor the hiding of the success toast is ever more
    than 5000 ms away. *)
Theorem reachable_timers_due_within_5000 :
  forall (enc : ApiFileEncoding) (doc : ApiDefinition) (es : list Event) (t : Timer),
    In t (timers (run es (init enc doc))) ->
    now (run es (init enc doc)) < due t
    /\ due t <= now (run es (init enc doc)) + 5000.
Proof.
  intros enc doc es. apply reachable_timely.
Qed.

Lemma reachable_timers_due_within_5000_witness :
  In edit_timer (timers (run (edit petstore_text) (init YAML petstore)))
  /\ now (run (edit petstore_text) (init YAML petstore)) < due edit_timer.
Proof.
  assert (Hin : In edit_timer (timers (run (edit petstore_text) (init YAML petstore))))
    by (vm_compute; left; reflexivity).
  split; [exact Hin|].
  exact (proj1 (reachable_timers_due_within_5000 YAML petstore (edit petstore_text)
                  edit_timer Hin)).
Defined.

(** ** Only an edit puts off a recovery write *)

Lemma run_timers_trace_mono (fuel : nat) (target : N) (s : State) (x : N * Effect) :
  In x (trace s) -> In x (trace (run_timers fuel target s)).
Proof.
  revert s. induction fuel as [|fuel IH]; intros s Hx; cbn [run_timers]; auto.
  destruct (next_due (timers s)) as [q|]; auto.
  destruct (due q <=? target); auto.
  apply IH. unfold fire. destruct (cb q); cbn; auto.
  apply in_or_app. left. exact Hx.
Qed.

Lemma run_chain_mono (c : list Link) (o : Outcome) (s : State) :
  (forall x, In x (trace s) -> In x (trace (fst (run_chain c o s))))
  /\ (forall t, In t (timers s) -> In t (timers (fst (run_chain c o s)))).
Proof.
  revert o s. induction c as [|l c IH]; intros o s; cbn [run_chain]; auto.
  destruct l as [f | g], o as [v | m]; auto.
  - destruct f; cbn [run_then setTimeout];
      match goal with |- context [run_chain c ?o' ?s'] =>
        destruct (IH o' s') as [H1 H2] end;
      split; intros y Hy; [apply H1 | apply H2 | apply H1 | apply H2
                           | apply H1 | apply H2]; cbn; auto;
      repeat (apply in_or_app; left); auto.
  - destruct g; cbn [run_catch].
    match goal with |- context [run_chain c ?o' ?s'] =>
      destruct (IH o' s') as [H1 H2] end.
    split; intros y Hy; [apply H1 | apply H2]; cbn; auto.
Qed.

Lemma step_trace_mono (s : State) (e : Event) (x : N * Effect) :
  In x (trace s) -> In x (trace (step s e)).
Proof.
  intros Hx. destruct e; cbn [step]; auto.
  - unfold documentChanged. destruct (truthy (persistenceTimeout s)); auto.
    destruct (persistenceTimeout s); auto.
  - unfold saveExt. destruct (typeof _ =? _)%string; auto.
    destruct (raises _); cbn; apply in_or_app; left; exact Hx.
  - unfold save, save_with. destruct (save_export _ _) as [content filename].
    destruct (raises content); cbn; apply in_or_app; left; exact Hx.
  - cbn. repeat (apply in_or_app; left). exact Hx.
  - unfold saveAndClose, save_with. destruct (save_export _ _) as [content filename].
    destruct (raises content); cbn; apply in_or_app; left; exact Hx.
  - cbn. apply in_or_app. left. exact Hx.
  - unfold closeSuccessToast. destruct (toastTimeoutId s); auto.
  - unfold closeErrorToast. destruct (toastTimeoutId s); auto.
  - unfold settle. destruct (lookup_promise id (promises s)) as [[c | o']|]; auto.
    destruct (run_chain_mono c o s) as [H _]. specialize (H x Hx).
    destruct (run_chain c o s) as [s' o2]. exact H.
  - apply run_timers_trace_mono, Hx.
Qed.

(** An event that is not an edit leaves a pending persistence timer pending,
    or is the passage of time that fires it. *)
Lemma step_recovery_progress (p : Timer) (s : State) (e : Event) :
  wf s -> handles_typed s -> timely s ->
  In p (timers s) -> cb p = PersistCb -> is_edit e = false ->
  In p (timers (step s e))
  \/ exists v, In (due p, StorageStore v) (trace (step s e)).
Proof.
  intros Hwf Hht Htm Hp Hcp He.
  assert (Hclose : forall s', timers s' = timers s ->
                     In p (timers (clearTimeout (toastTimeoutId s) s'))).
  { intros s' Hs'. destruct (toastTimeoutId s) as [id|] eqn:E; cbn; rewrite Hs'; auto.
    apply filter_In. split; auto. apply negb_true_iff, N.eqb_neq. intros Heq.
    pose proof (toast_handle_kind s Hht p Hp) as H. rewrite E, Heq in H.
    specialize (H eq_refl). congruence. }
  destruct e; cbn [step]; try discriminate He; try (left; exact Hp).
  - left. unfold saveExt.
    destruct (typeof _ =? _)%string; [destruct (raises _)|]; exact Hp.
  - left. unfold save, save_with. destruct (save_export _ _) as [content filename].
    destruct (raises content); exact Hp.
  - left. unfold saveAndClose, save_with.
    destruct (save_export _ _) as [content filename].
    destruct (raises content); exact Hp.
  - left. apply (Hclose (set_showSuccessToast false s)). reflexivity.
  - left. apply (Hclose (set_showErrorToast false s)). reflexivity.
  - left. unfold settle. destruct (lookup_promise id (promises s)) as [[c | o']|]; auto.
    destruct (run_chain_mono c o s) as [_ H]. specialize (H p Hp).
    destruct (run_chain c o s) as [s' o2]. exact H.
  - destruct (N.ltb_spec (now s + ms) (due p)) as [Hlt | Hge].
    + left. apply run_timers_keeps; auto.
    + right. exists (editor_value s).
      destruct (Htm p Hp) as [Hnow _].
      destruct (run_timers_persist (List.length (timers s)) (now s + ms) s p)
        as [Hw _]; auto; try lia.
      fold (advance ms s) in Hw.
      assert (Hin : In (due p, StorageStore (editor_value s)) (writes (advance ms s))).
      { rewrite Hw. apply in_or_app. right. left. reflexivity. }
      apply filter_In in Hin. tauto.
Qed.

(** X16: only a new edit puts off a recovery write.  Once a persistence
    timer is pending, whatever happens that is not [documentChanged()]
    (saves, closes, generations and their completions, toast buttons, host
    saves, time), by the time its deadline has passed a snapshot has been
    written to the recovery store, at the deadline. *)
Theorem recovery_write_happens_unless_edited :
  forall (enc : ApiFileEncoding) (doc : ApiDefinition) (es0 es : list Event) (p : Timer),
    In p (timers (run es0 (init enc doc))) -> cb p = PersistCb ->
    Forall (fun e => is_edit e = false) es ->
    due p <= now (run es (run es0 (init enc doc))) ->
    exists v, In (due p, StorageStore v) (writes (run es (run es0 (init enc doc)))).
Proof.
  intros enc doc es0 es p Hp Hcp Hes Hdue.
  set (s0 := run es0 (init enc doc)) in *.
  assert (Hinv0 : wf s0 /\ handles_typed s0 /\ timely s0).
  { split; [apply reachable_wf|]. split; [apply reachable_handles_typed|].
    intros t Ht. exact (reachable_timely enc doc es0 t Ht). }
  assert (H : forall s, (wf s /\ handles_typed s /\ timely s) ->
              (In p (timers s) \/ exists v, In (due p, StorageStore v) (trace s)) ->
              (wf (run es s) /\ handles_typed (run es s) /\ timely (run es s))
              /\ (In p (timers (run es s))
                  \/ exists v, In (due p, StorageStore v) (trace (run es s)))).
  { clear Hdue Hp Hinv0. induction es as [|e es IH]; intros s Hinv Hq;
      cbn [run fold_left]; auto.
    inversion Hes as [|x xs He Hes']; subst.
    destruct Hinv as [Hwf [Hht Htm]].
    apply (IH Hes').
    - split; [apply step_wf, Hwf|].
      split; [apply step_handles_typed; assumption | apply step_timely, Htm].
    - destruct Hq as [Hq | [v Hv]].
      + apply step_recovery_progress; assumption.
      + right. exists v. apply step_trace_mono, Hv. }
  destruct (H s0 Hinv0 (or_introl Hp)) as [[_ [_ Htm]] [Hq | [v Hv]]].
  - destruct (Htm p Hq). lia.
  - exists v. apply filter_In. split; [exact Hv | reflexivity].
Qed.

Lemma recovery_write_happens_unless_edited_witness :
  (In edit_timer (timers (run (edit petstore_text) (init YAML petstore)))
   /\ cb edit_timer = PersistCb
   /\ Forall (fun e => is_edit e = false)
        [EClose; EGenerate camel_config; EAdvance 2000;
         ESettle 0 (Rejected "quota exceeded"); ECloseErrorToast; EAdvance 3000]
   /\ due edit_timer
      <= now (run [EClose; EGenerate camel_config; EAdvance 2000;
                   ESettle 0 (Rejected "quota exceeded"); ECloseErrorToast;
                   EAdvance 3000]
                  (run (edit petstore_text) (init YAML petstore))))
  /\ exists v,
       In (due edit_timer, StorageStore v)
          (writes (run [EClose; EGenerate camel_config; EAdvance 2000;
                        ESettle 0 (Rejected "quota exceeded"); ECloseErrorToast;
                        EAdvance 3000]
                       (run (edit petstore_text) (init YAML petstore)))).
Proof.
  assert (Hin : In edit_timer (timers (run (edit petstore_text) (init YAML petstore))))
    by (vm_compute; left; reflexivity).
  assert (Hcb : cb edit_timer = PersistCb) by reflexivity.
  assert (Hes : Forall (fun e => is_edit e = false)
                  [EClose; EGenerate camel_config; EAdvance 2000;
                   ESettle 0 (Rejected "quota exceeded"); ECloseErrorToast;
                   EAdvance 3000]) by (repeat constructor).
  assert (Hdue : due edit_timer
                 <= now (run [EClose; EGenerate camel_config; EAdvance 2000;
                              ESettle 0 (Rejected "quota exceeded"); ECloseErrorToast;
                              EAdvance 3000]
                             (run (edit petstore_text) (init YAML petstore))))
    by (vm_compute; discriminate).
  split; [exact (conj Hin (conj Hcb (conj Hes Hdue)))|].
  exact (recovery_write_happens_unless_edited YAML petstore (edit petstore_text)
           [EClose; EGenerate camel_config; EAdvance 2000;
            ESettle 0 (Rejected "quota exceeded"); ECloseErrorToast; EAdvance 3000]
           edit_timer Hin Hcb Hes Hdue).
Defined.

(** ** Buttons pressed more than once *)

Lemma filter_idem {A : Type} (f : A -> bool) (l : list A) :
  filter f (filter f l) = filter f l.
Proof.
  induction l as [|a l IH]; [reflexivity|]. cbn [filter].
  destruct (f a) eqn:E; cbn [filter]; rewrite ?E, IH; reflexivity.
Qed.

(** X17: the close buttons of the toasts can be pressed again and in either
    order: each of [closeSuccessToast()] and [closeErrorToast()] done twice
    is the same as done once, and the two commute. *)
Theorem toast_close_idempotent_and_commute :
  forall s : State,
    closeSuccessToast (closeSuccessToast s) = closeSuccessToast s
    /\ closeErrorToast (closeErrorToast s) = closeErrorToast s
    /\ closeErrorToast (closeSuccessToast s) = closeSuccessToast (closeErrorToast s).
Proof.
  intros s. unfold closeSuccessToast, closeErrorToast.
  destruct (toastTimeoutId s) as [id|] eqn:E;
    cbn [clearTimeout set_showSuccessToast set_showErrorToast set_timers
         toastTimeoutId timers];
    rewrite ?E;
    cbn [clearTimeout set_showSuccessToast set_showErrorToast set_timers
         toastTimeoutId timers generating generateError showSuccessToast
         showErrorToast persistenceTimeout encoding editor_value storage
         next_timer promises next_promise now trace];
    rewrite ?filter_idem; repeat split.
Qed.

(** X18: [close()] has no guard against being called again: every call sends
    one more "closed" signal. *)
Theorem close_signals_every_call :
  forall (n : nat) (s : State),
    List.length (closed_signals (run (repeat EClose n) s))
    = (List.length (closed_signals s) + n)%nat.
Proof.
  induction n as [|n IH]; intros s; cbn [repeat run fold_left step].
  - lia.
  - change (fold_left step (repeat EClose n) (close s))
      with (run (repeat EClose n) (close s)).
    rewrite IH. unfold closed_signals, close. cbn. rewrite !filter_app. cbn.
    rewrite !length_app. cbn. lia.
Qed.

(** ** Generation and recovery *)

(** X19: a generation never touches recovery: after [generate(gconfig)] and
    the completion of its transport call, whichever way it goes, the recovery
    store, the pending persistence timers, [persistenceTimeout] and the
    writes made so far are what they were. *)
Theorem generate_leaves_recovery_alone :
  forall (s : State) (gconfig : GeneratorConfig) (o : Outcome),
    storage (settle (next_promise s) o (generate gconfig s)) = storage s
    /\ pending_persistence (settle (next_promise s) o (generate gconfig s))
       = pending_persistence s
    /\ persistenceTimeout (settle (next_promise s) o (generate gconfig s))
       = persistenceTimeout s
    /\ writes (settle (next_promise s) o (generate gconfig s)) = writes s.
Proof.
  intros s gconfig o. unfold settle, generate. cbn. rewrite N.eqb_refl.
  unfold pending_persistence, writes.
  destruct o as [v | m]; cbn; rewrite !filter_app; cbn; rewrite !app_nil_r;
    repeat split.
Qed.
